(** * The karaoke room server (server.js): a shallow embedding

    The server keeps one table [rooms] (room id -> host, queue, current
    song), reacts to socket events by mutating that table and emitting
    events, and answers one HTTP search route.  Payloads arrive as JSON, so
    every payload field is an arbitrary JavaScript value; the handlers
    coerce them implicitly ([rooms[roomId]], [parseInt(index)], template
    strings).  The first part of this file embeds those coercions, the
    second the handlers, the third states and proves their properties.

    Texts are [string]s: sequences of code units below 256.  Numbers are
    kept by the decimal digits and exponent they print with, which is all
    the handlers ever look at. *)

From Stdlib Require Import ZArith QArith List String Ascii Bool Lia.
From Stdlib Require Import DecimalString.
From Stdlib Require DecimalFacts DecimalPos DecimalN.
From stdpp Require Import base option list strings gmap.

Set Warnings "-register-all".

Local Open Scope string_scope.
Local Open Scope list_scope.
Local Open Scope Z_scope.

(** ** JavaScript values carried by JSON payloads *)

Module Js.

(** Decimal digits, as they occur in the rendering of a number. *)
Inductive digit := d0 | d1 | d2 | d3 | d4 | d5 | d6 | d7 | d8 | d9.

Definition digit_val (d : digit) : Z :=
  match d with
  | d0 => 0 | d1 => 1 | d2 => 2 | d3 => 3 | d4 => 4
  | d5 => 5 | d6 => 6 | d7 => 7 | d8 => 8 | d9 => 9
  end.

Definition digit_char (d : digit) : ascii :=
  (match d with
   | d0 => "0" | d1 => "1" | d2 => "2" | d3 => "3" | d4 => "4"
   | d5 => "5" | d6 => "6" | d7 => "7" | d8 => "8" | d9 => "9"
   end)%char.

(** A Number.  A finite non-zero double is identified by the triple the
    language definition uses to print it: its sign, the decimal digits of
    the shortest significand [s] that reads back as the same double, and
    the exponent [n], the value being [+/- 0.s * 10^n]
    (so [1.9] is digits 19 with [n = 1], [5e-7] is digit 5 with [n = -6],
    [1e21] is digit 1 with [n = 22]). *)
Inductive Number :=
| NaN
| Infinity (neg : bool)
| Zero (neg : bool)
| Finite (neg : bool) (s : list digit) (n : Z).

Inductive Value :=
| JUndefined
| JNull
| JBool (b : bool)
| JNum (x : Number)
| JStr (s : string)
| JArr (elems : list Value)
| JObj (fields : list (string * Value)).

(** The integer written by a digit list, most significant digit first. *)
Definition digits_val (ds : list digit) : Z :=
  fold_left (fun acc d => acc * 10 + digit_val d) ds 0.

(** The mathematical value of a Number, where it has one. *)
Definition Number_value (x : Number) : option Q :=
  match x with
  | NaN | Infinity _ => None
  | Zero _ => Some 0%Q
  | Finite neg s n =>
      let k := Z.of_nat (length s) in
      let m := if neg then - digits_val s else digits_val s in
      Some (if k <=? n then inject_Z (m * 10 ^ (n - k))
            else Qmake m (Z.to_pos (10 ^ (k - n))))
  end.

(** Truncation toward zero. *)
Definition Qtrunc (q : Q) : Z := Z.quot (Qnum q) (Zpos (Qden q)).

(** *** Number::toString (radix 10) *)

Definition chars (ds : list digit) : list ascii := map digit_char ds.

Definition decimal (z : Z) : list ascii :=
  list_ascii_of_string (NilEmpty.string_of_uint (N.to_uint (Z.to_N z))).

Definition Number_toString (x : Number) : string :=
  match x with
  | NaN => "NaN"
  | Zero _ => "0"
  | Infinity neg => if neg then "-Infinity" else "Infinity"
  | Finite neg s n =>
      let k := Z.of_nat (length s) in
      let body :=
        if (k <=? n) && (n <=? 21) then
          chars s ++ repeat "0"%char (Z.to_nat (n - k))
        else if (0 <? n) && (n <=? 21) then
          chars (take (Z.to_nat n) s) ++ "."%char :: chars (drop (Z.to_nat n) s)
        else if (-6 <? n) && (n <=? 0) then
          "0"%char :: "."%char :: repeat "0"%char (Z.to_nat (- n)) ++ chars s
        else
          let e := n - 1 in
          let mant := match chars s with
                      | [] => []
                      | [c] => [c]
                      | c :: rest => c :: "."%char :: rest
                      end in
          mant ++ "e"%char :: (if e <? 0 then "-"%char else "+"%char)
               :: decimal (Z.abs e)
      in
      string_of_list_ascii (if neg then "-"%char :: body else body)
  end.

(** *** ToString

    [None] stands for a thrown TypeError.  A JSON object cannot carry a
    function, so an own [toString] field makes the conversion to a
    primitive fail; without one the inherited method answers
    ["[object Object]"].  An array is joined with commas, [null] and
    [undefined] elements printing as the empty string. *)
Definition has_field (name : string) (fields : list (string * Value)) : bool :=
  existsb (fun f => String.eqb (fst f) name) fields.

Fixpoint ToString (v : Value) : option string :=
  match v with
  | JUndefined => Some "undefined"
  | JNull => Some "null"
  | JBool b => Some (if b then "true" else "false")
  | JNum x => Some (Number_toString x)
  | JStr s => Some s
  | JArr elems =>
      (fix join (l : list Value) : option string :=
         let elem (x : Value) :=
           match x with
           | JUndefined | JNull => Some EmptyString
           | _ => ToString x
           end in
         match l with
         | [] => Some EmptyString
         | [x] => elem x
         | x :: rest =>
             match elem x, join rest with
             | Some a, Some b => Some (a +:+ "," +:+ b)
             | _, _ => None
             end
         end) elems
  | JObj fields =>
      if has_field "toString" fields then None else Some "[object Object]"
  end.

(** A property key is the ToString of the value (JSON has no symbols). *)
Definition ToPropertyKey (v : Value) : option string := ToString v.

(** ToBoolean. *)
Definition truthy (v : Value) : bool :=
  match v with
  | JUndefined | JNull => false
  | JBool b => b
  | JNum NaN | JNum (Zero _) => false
  | JNum _ => true
  | JStr s => negb (String.eqb s EmptyString)
  | JArr _ | JObj _ => true
  end.

(** *** parseInt (one argument)

    The result is NaN or an integer.  The integer is kept exact: the
    rounding to a double is monotone and exact below 2^53, array lengths
    are below 2^32, and [-0] behaves as [0] in [>=], [<] and [splice], so
    every use the handlers make of the result agrees with the exact
    integer. *)
Inductive Int := IntNaN | IntVal (z : Z).

(** White space and line terminators among the code units below 256. *)
Definition is_StrWhiteSpaceChar (c : ascii) : bool :=
  let n := nat_of_ascii c in
  ((9 <=? n)%nat && (n <=? 13)%nat) || (n =? 32)%nat || (n =? 160)%nat.

Fixpoint trim_start (s : list ascii) : list ascii :=
  match s with
  | c :: rest => if is_StrWhiteSpaceChar c then trim_start rest else s
  | [] => []
  end.

Definition radix_digit (R : Z) (c : ascii) : option Z :=
  let n := Z.of_nat (nat_of_ascii c) in
  let v := if (48 <=? n) && (n <=? 57) then Some (n - 48)
           else if (97 <=? n) && (n <=? 122) then Some (n - 87)
           else if (65 <=? n) && (n <=? 90) then Some (n - 55)
           else None in
  match v with
  | Some d => if d <? R then Some d else None
  | None => None
  end.

(** The longest prefix of radix-R digits, as digit values. *)
Fixpoint radix_prefix (R : Z) (s : list ascii) : list Z :=
  match s with
  | c :: rest =>
      match radix_digit R c with
      | Some d => d :: radix_prefix R rest
      | None => []
      end
  | [] => []
  end.

Definition radix_val (R : Z) (ds : list Z) : Z :=
  fold_left (fun acc d => acc * R + d) ds 0.

(** A leading [-] or [+] is taken off and remembered. *)
Definition strip_sign (s : list ascii) : Z * list ascii :=
  match s with
  | "-"%char :: rest => (-1, rest)
  | "+"%char :: rest => (1, rest)
  | _ => (1, s)
  end.

(** With no radix argument, [0x] or [0X] selects radix 16; otherwise 10. *)
Definition strip_prefix (s : list ascii) : Z * list ascii :=
  match s with
  | "0"%char :: "x"%char :: rest => (16, rest)
  | "0"%char :: "X"%char :: rest => (16, rest)
  | _ => (10, s)
  end.

Definition parseInt_string (inputString : string) : Int :=
  let '(sign, s1) := strip_sign (trim_start (list_ascii_of_string inputString)) in
  let '(R, s2) := strip_prefix s1 in
  match radix_prefix R s2 with
  | [] => IntNaN
  | ds => IntVal (sign * radix_val R ds)
  end.

Definition parseInt (v : Value) : option Int :=
  match ToString v with
  | Some s => Some (parseInt_string s)
  | None => None
  end.

End Js.

Import Js.

(** ** The room table *)

(** [rooms[roomId] = { host: socket.id, queue: [], currentSong: null }] *)
Record Room := mkRoom {
  host : string;
  queue : list Value;
  currentSong : Value;
}.

(** [rooms] is a plain object literal used as a table, so [rooms[key]]
    looks first at the rooms stored under [key] and then, as for any
    object, at what is inherited from [Object.prototype]. *)
Definition Object_prototype_names : list string :=
  [ "constructor"; "hasOwnProperty"; "isPrototypeOf"; "propertyIsEnumerable";
    "toLocaleString"; "toString"; "valueOf"; "__proto__";
    "__defineGetter__"; "__defineSetter__"; "__lookupGetter__";
    "__lookupSetter__" ].

Definition inherited (key : string) : bool :=
  existsb (String.eqb key) Object_prototype_names.

Inductive RoomRef :=
| OwnRoom (r : Room)          (* a room created by create-room *)
| Inherited (name : string)   (* a built-in function or Object.prototype: truthy,
                                 with no host, queue or currentSong *)
| Undefined.

Definition rooms_get (rooms : gmap string Room) (key : string) : RoomRef :=
  match rooms !! key with
  | Some r => OwnRoom r
  | None => if inherited key then Inherited key else Undefined
  end.

(** ** What a handler does to the outside *)

Inductive Target :=
| ToSocket                 (* socket.emit: the sender only *)
| IoTo (room : Value)      (* io.to(room).emit: every member of the group *)
| SocketTo (room : Value). (* socket.to(room).emit: every member but the sender *)

Inductive Action :=
| Join (room : Value)
| Emit (to : Target) (event : string) (args : list Value).

(** The connections an emission reaches, given who has joined which group. *)
Definition recipients (members : Value -> list string) (sender : string)
    (to : Target) : list string :=
  match to with
  | ToSocket => [sender]
  | IoTo room => members room
  | SocketTo room => filter (fun c => c <> sender) (members room)
  end.

(** A handler returns, or a TypeError leaves it (nothing catches it), or it
    assigns a [queue] property to a built-in object shared by the whole
    process.  In the last case the room table is as before, but what
    inherited keys resolve to is no longer described by [rooms_get], and the
    run is not followed further. *)
Inductive Outcome :=
| Returned (rooms' : gmap string Room) (out : list Action)
| Threw
| WroteBuiltin (name : string) (out : list Action).

(** ** The handlers of [io.on('connection', ...)] *)

(** [generateRoomId]: the argument is the value of
    [Math.floor(100000 + Math.random() * 900000)], an integer from 100000 to
    999999, whose [toString()] is its decimal digits. *)
Definition generateRoomId (floor : Z) : string :=
  string_of_list_ascii (decimal floor).

(** [queue.splice(idx, 1)] for [0 <= idx < queue.length]. *)
Definition splice1 (idx : Z) (q : list Value) : list Value :=
  take (Z.to_nat idx) q ++ drop (S (Z.to_nat idx)) q.

(** [idx >= 0 && idx < len] *)
Definition in_range (idx : Int) (len : nat) : bool :=
  match idx with
  | IntNaN => false
  | IntVal z => (0 <=? z) && (z <? Z.of_nat len)
  end.

Definition ge_zero (idx : Int) : bool :=
  match idx with
  | IntNaN => false
  | IntVal z => 0 <=? z
  end.

Section Handlers.

Variable rooms : gmap string Room.
Variable sender : string.   (* socket.id *)

Definition create_room (floor : Z) : Outcome :=
  let roomId := generateRoomId floor in
  Returned (<[roomId := mkRoom sender [] JNull]> rooms)
           [Join (JStr roomId); Emit ToSocket "room-created" [JStr roomId]].

Definition join_room (roomId : Value) : Outcome :=
  match ToPropertyKey roomId with
  | None => Threw
  | Some key =>
      match rooms_get rooms key with
      | OwnRoom r =>
          Returned rooms
            [Join roomId;
             Emit ToSocket "room-joined"
               [JObj [("roomId", roomId); ("queue", JArr (queue r));
                      ("currentSong", currentSong r)]]]
      | Inherited _ =>
          Returned rooms
            [Join roomId;
             Emit ToSocket "room-joined"
               [JObj [("roomId", roomId); ("queue", JUndefined);
                      ("currentSong", JUndefined)]]]
      | Undefined => Returned rooms [Emit ToSocket "error" [JStr "Room not found"]]
      end
  end.

Definition request_sync (roomId : Value) : Outcome :=
  match ToPropertyKey roomId with
  | None => Threw
  | Some key =>
      match rooms_get rooms key with
      | OwnRoom r =>
          Returned rooms
            [Emit ToSocket "full-sync"
               [JObj [("queue", JArr (queue r)); ("currentSong", currentSong r)]]]
      | Inherited _ =>
          Returned rooms
            [Emit ToSocket "full-sync"
               [JObj [("queue", JUndefined); ("currentSong", JUndefined)]]]
      | Undefined => Returned rooms []
      end
  end.

Definition add_to_queue (roomId song : Value) : Outcome :=
  match ToPropertyKey roomId with
  | None => Threw
  | Some key =>
      match rooms_get rooms key with
      | OwnRoom r =>
          let q := queue r ++ [song] in
          Returned (<[key := mkRoom (host r) q (currentSong r)]> rooms)
                   [Emit (IoTo roomId) "queue-updated" [JArr q]]
      | Inherited _ => Threw     (* [undefined.push] *)
      | Undefined => Returned rooms []
      end
  end.

Definition player_state (roomId isPlaying volume currentTime duration : Value)
    : Outcome :=
  match ToPropertyKey roomId with
  | None => Threw
  | Some key =>
      match rooms_get rooms key with
      | OwnRoom _ | Inherited _ =>
          Returned rooms
            [Emit (SocketTo roomId) "player-state"
               [JObj [("isPlaying", isPlaying); ("volume", volume);
                      ("currentTime", currentTime); ("duration", duration)]]]
      | Undefined => Returned rooms []
      end
  end.

Definition request_next (roomId : Value) : Outcome :=
  match ToPropertyKey roomId with
  | None => Threw
  | Some key =>
      match rooms_get rooms key with
      | OwnRoom r =>
          match queue r with
          | song :: rest =>
              Returned (<[key := mkRoom (host r) rest song]> rooms)
                       [Emit (IoTo roomId) "play-song" [song];
                        Emit (IoTo roomId) "queue-updated" [JArr rest]]
          | [] =>
              Returned (<[key := mkRoom (host r) [] JNull]> rooms)
                       [Emit (IoTo roomId) "play-song" [JNull]]
          end
      | Inherited _ => Threw     (* [undefined.length] *)
      | Undefined => Returned rooms []
      end
  end.

Definition skip_song (roomId : Value) : Outcome :=
  match ToPropertyKey roomId with
  | None => Threw
  | Some key =>
      match rooms_get rooms key with
      | OwnRoom r => Returned rooms [Emit (SocketTo (JStr (host r))) "force-skip" []]
      | Inherited _ => Returned rooms [Emit (SocketTo JUndefined) "force-skip" []]
      | Undefined => Returned rooms []
      end
  end.

Definition clear_queue (roomId : Value) : Outcome :=
  match ToPropertyKey roomId with
  | None => Threw
  | Some key =>
      match rooms_get rooms key with
      | OwnRoom r =>
          Returned (<[key := mkRoom (host r) [] (currentSong r)]> rooms)
                   [Emit (IoTo roomId) "queue-updated" [JArr []]]
      | Inherited name =>
          WroteBuiltin name [Emit (IoTo roomId) "queue-updated" [JArr []]]
      | Undefined => Returned rooms []
      end
  end.

(** [parseInt(index)] runs first; in the condition, [idx >= 0] is tested
    before [rooms[roomId].queue.length] is read. *)
Definition remove_from_queue (roomId index : Value) : Outcome :=
  match parseInt index with
  | None => Threw
  | Some idx =>
      match ToPropertyKey roomId with
      | None => Threw
      | Some key =>
          match rooms_get rooms key with
          | OwnRoom r =>
              match idx with
              | IntVal z =>
                  if in_range idx (length (queue r)) then
                    let q := splice1 z (queue r) in
                    Returned (<[key := mkRoom (host r) q (currentSong r)]> rooms)
                             [Emit (IoTo roomId) "queue-updated" [JArr q]]
                  else Returned rooms []
              | IntNaN => Returned rooms []
              end
          | Inherited _ => if ge_zero idx then Threw else Returned rooms []
          | Undefined => Returned rooms []
          end
      end
  end.

Definition play_specific (roomId index : Value) : Outcome :=
  match parseInt index with
  | None => Threw
  | Some idx =>
      match ToPropertyKey roomId with
      | None => Threw
      | Some key =>
          match rooms_get rooms key with
          | OwnRoom r =>
              match idx with
              | IntVal z =>
                  if in_range idx (length (queue r)) then
                    let song := nth (Z.to_nat z) (queue r) JUndefined in
                    let q := splice1 z (queue r) in
                    Returned (<[key := mkRoom (host r) q song]> rooms)
                             [Emit (IoTo roomId) "play-song" [song];
                              Emit (IoTo roomId) "queue-updated" [JArr q]]
                  else Returned rooms []
              | IntNaN => Returned rooms []
              end
          | Inherited _ => if ge_zero idx then Threw else Returned rooms []
          | Undefined => Returned rooms []
          end
      end
  end.

Definition toggle_play (roomId : Value) : Outcome :=
  match ToPropertyKey roomId with
  | None => Threw
  | Some key =>
      match rooms_get rooms key with
      | OwnRoom r => Returned rooms [Emit (SocketTo (JStr (host r))) "toggle-play" []]
      | Inherited _ => Returned rooms [Emit (SocketTo JUndefined) "toggle-play" []]
      | Undefined => Returned rooms []
      end
  end.

Definition set_volume (roomId volume : Value) : Outcome :=
  match ToPropertyKey roomId with
  | None => Threw
  | Some key =>
      match rooms_get rooms key with
      | OwnRoom r =>
          Returned rooms [Emit (SocketTo (JStr (host r))) "set-volume" [volume]]
      | Inherited _ =>
          Returned rooms [Emit (SocketTo JUndefined) "set-volume" [volume]]
      | Undefined => Returned rooms []
      end
  end.

Definition disconnect : Outcome := Returned rooms [].

End Handlers.

(** The inbound events, with the fields their handlers destructure. *)
Inductive Event :=
| CreateRoom (floor : Z)
| JoinRoom (roomId : Value)
| RequestSync (roomId : Value)
| AddToQueue (roomId song : Value)
| PlayerState (roomId isPlaying volume currentTime duration : Value)
| RequestNext (roomId : Value)
| SkipSong (roomId : Value)
| ClearQueue (roomId : Value)
| RemoveFromQueue (roomId index : Value)
| PlaySpecific (roomId index : Value)
| TogglePlay (roomId : Value)
| SetVolume (roomId volume : Value)
| Disconnect.

Definition handle (rooms : gmap string Room) (sender : string) (e : Event)
    : Outcome :=
  match e with
  | CreateRoom floor => create_room rooms sender floor
  | JoinRoom roomId => join_room rooms roomId
  | RequestSync roomId => request_sync rooms roomId
  | AddToQueue roomId song => add_to_queue rooms roomId song
  | PlayerState roomId p v t d => player_state rooms roomId p v t d
  | RequestNext roomId => request_next rooms roomId
  | SkipSong roomId => skip_song rooms roomId
  | ClearQueue roomId => clear_queue rooms roomId
  | RemoveFromQueue roomId index => remove_from_queue rooms roomId index
  | PlaySpecific roomId index => play_specific rooms roomId index
  | TogglePlay roomId => toggle_play rooms roomId
  | SetVolume roomId volume => set_volume rooms roomId volume
  | Disconnect => disconnect rooms
  end.

(** Events are handled one at a time, in arrival order; a run ends where a
    handler does not return. *)
Fixpoint run (rooms : gmap string Room) (events : list (string * Event))
    : Outcome :=
  match events with
  | [] => Returned rooms []
  | (sender, e) :: rest =>
      match handle rooms sender e with
      | Returned rooms' out =>
          match run rooms' rest with
          | Returned rooms'' out' => Returned rooms'' (out ++ out')
          | Threw => Threw
          | WroteBuiltin name out' => WroteBuiltin name (out ++ out')
          end
      | Threw => Threw
      | WroteBuiltin name out => WroteBuiltin name out
      end
  end.

(** ** The search route, [GET /api/search] *)

Module Search.

(** What the provider returns for one video, and what the route answers. *)
Record Video := mkVideo {
  videoId : Value;
  title : Value;
  thumbnail : Value;
  timestamp : Value;
  author : Value;
}.

Record Song := mkSong {
  song_id : Value;
  song_title : Value;
  song_thumbnail : Value;
  song_duration : Value;
  song_author : Value;
}.

Inductive Lookup :=
| Rejected
| Resolved (videos : list Video).

Inductive Body :=
| ErrorBody (error : string)
| Songs (songs : list Song).

Record Response := mkResponse { status : Z; body : Body }.

(** [v.name]: reading a property of [undefined] or [null] throws. *)
Definition get_name (v : Value) : option Value :=
  match v with
  | JUndefined | JNull => None
  | JObj fields =>
      match find (fun f => String.eqb (fst f) "name") fields with
      | Some f => Some (snd f)
      | None => Some JUndefined
      end
  | _ => Some JUndefined
  end.

(** [videos.map(video => ({ id: video.videoId, ... }))] *)
Fixpoint map_videos (videos : list Video) : option (list Song) :=
  match videos with
  | [] => Some []
  | video :: rest =>
      match get_name (author video), map_videos rest with
      | Some name, Some songs =>
          Some (mkSong (videoId video) (title video) (thumbnail video)
                       (timestamp video) name :: songs)
      | _, _ => None
      end
  end.

Section Route.

(** The provider, [yts]. *)
Variable yts : Value -> Lookup.

(** [karaokeOnly ? `${query} karaoke` : query] *)
Definition searchQuery (query : Value) (karaokeOnly : bool) : option Value :=
  if karaokeOnly then
    match ToString query with
    | Some s => Some (JStr (s +:+ " karaoke"))
    | None => None
    end
  else Some query.

(** [req.query.karaokeOnly !== 'false'] *)
Definition karaokeOnly_of (param : Value) : bool :=
  match param with
  | JStr s => negb (String.eqb s "false")
  | _ => true
  end.

Definition search (q karaokeOnly_param : Value) : Response :=
  let query := q in
  let karaokeOnly := karaokeOnly_of karaokeOnly_param in
  if negb (truthy query) then mkResponse 400 (ErrorBody "Query is required")
  else
    let failed := mkResponse 500 (ErrorBody "Failed to search YouTube") in
    match searchQuery query karaokeOnly with
    | None => failed
    | Some text =>
        match yts text with
        | Rejected => failed
        | Resolved videos =>
            match map_videos (take 15 videos) with
            | Some songs => mkResponse 200 (Songs songs)
            | None => failed
            end
        end
    end.

End Route.

End Search.


(** ** Notions used to state the properties *)

(** The characters of a number printed without exponent. *)
Definition plain_char (c : ascii) : bool :=
  match radix_digit 10 c with
  | Some _ => true
  | None => Ascii.eqb c "."
  end.

(** The payloads emitted under one event name, in order. *)
Definition emissions (event : string) (out : list Action)
    : list (Target * list Value) :=
  flat_map (fun a =>
              match a with
              | Emit to e args => if String.eqb e event then [(to, args)] else []
              | Join _ => []
              end) out.

(** A text made of decimal digits. *)
Definition digits_string (ds : list digit) : string :=
  string_of_list_ascii (chars ds).

Definition starts_with_digit (s : string) : bool :=
  match s with
  | String c _ => match radix_digit 10 c with Some _ => true | None => false end
  | EmptyString => false
  end.

Definition hex_prefixed (s : string) : bool :=
  match s with
  | String "0" (String "x" _) | String "0" (String "X" _) => true
  | _ => false
  end.

(** The decimal digits a text starts with, after white space and sign. *)
Definition leading_digits (s : string) : list Z :=
  radix_prefix 10 (snd (strip_sign (trim_start (list_ascii_of_string s)))).

(** The histories of the room table: the table after each handled event,
    latest first, from the empty table the process starts with. *)
Inductive history : list (gmap string Room) -> Prop :=
| history_start : history [∅]
| history_step rooms past sender e rooms' out :
    history (rooms :: past) ->
    handle rooms sender e = Returned rooms' out ->
    history (rooms' :: rooms :: past).

(** The songs announced by play-song, in order. *)
Definition played (out : list Action) : list Value :=
  concat (map snd (emissions "play-song" out)).

(** The events of a list of additions (sender, song) and of a list of
    request-next senders, for one room id. *)
Definition additions (roomId : Value) (adds : list (string * Value))
    : list (string * Event) :=
  map (fun a => (fst a, AddToQueue roomId (snd a))) adds.

Definition requests (roomId : Value) (nexts : list string)
    : list (string * Event) :=
  map (fun c => (c, RequestNext roomId)) nexts.

(** The room id carried by the events that act on an existing room only. *)
Definition room_of (e : Event) : option Value :=
  match e with
  | RequestSync roomId | AddToQueue roomId _ | PlayerState roomId _ _ _ _
  | RequestNext roomId | SkipSong roomId | ClearQueue roomId
  | RemoveFromQueue roomId _ | PlaySpecific roomId _
  | TogglePlay roomId | SetVolume roomId _ => Some roomId
  | CreateRoom _ | JoinRoom _ | Disconnect => None
  end.

Definition index_of (e : Event) : option Value :=
  match e with
  | RemoveFromQueue _ index | PlaySpecific _ index => Some index
  | _ => None
  end.

(** The digits of a decimal numeral, as [generateRoomId] prints them. *)
Fixpoint uint_digits (u : Decimal.uint) : list digit :=
  match u with
  | Decimal.Nil => []
  | Decimal.D0 u => d0 :: uint_digits u
  | Decimal.D1 u => d1 :: uint_digits u
  | Decimal.D2 u => d2 :: uint_digits u
  | Decimal.D3 u => d3 :: uint_digits u
  | Decimal.D4 u => d4 :: uint_digits u
  | Decimal.D5 u => d5 :: uint_digits u
  | Decimal.D6 u => d6 :: uint_digits u
  | Decimal.D7 u => d7 :: uint_digits u
  | Decimal.D8 u => d8 :: uint_digits u
  | Decimal.D9 u => d9 :: uint_digits u
  end.

(** The key of the table an event addresses: the generated id for
    create-room, the key its room id converts to for the others. *)
Definition key_of (e : Event) : option string :=
  match e with
  | CreateRoom floor => Some (generateRoomId floor)
  | JoinRoom roomId | RequestSync roomId | AddToQueue roomId _
  | PlayerState roomId _ _ _ _ | RequestNext roomId | SkipSong roomId
  | ClearQueue roomId | RemoveFromQueue roomId _ | PlaySpecific roomId _
  | TogglePlay roomId | SetVolume roomId _ => ToPropertyKey roomId
  | Disconnect => None
  end.

(** How the events a handler emits are addressed: replies to the sender,
    state broadcasts to the whole room, relays and controls past the
    sender. *)
Definition reply_events : list string :=
  ["room-created"; "room-joined"; "error"; "full-sync"].

Definition broadcast_events : list string := ["queue-updated"; "play-song"].

Definition relay_events : list string :=
  ["player-state"; "force-skip"; "toggle-play"; "set-volume"].

Definition well_routed (a : Action) : Prop :=
  match a with
  | Join _ => True
  | Emit ToSocket event _ => In event reply_events
  | Emit (IoTo _) event _ => In event broadcast_events
  | Emit (SocketTo _) event _ => In event relay_events
  end.

(** * Properties *)

Example parseInt_1_9 : parseInt (JNum (Finite false [d1; d9] 1)) = Some (IntVal 1).
Proof. reflexivity. Qed.
Example parseInt_2abc : parseInt (JStr "2abc") = Some (IntVal 2).
Proof. reflexivity. Qed.
Example toString_1e21 : Number_toString (Finite false [d1] 22) = "1e+21".
Proof. reflexivity. Qed.
Example toString_5e_7 : Number_toString (Finite false [d5] (-6)) = "5e-7".
Proof. reflexivity. Qed.
Example toString_small : Number_toString (Finite false [d1] (-5)) = "0.000001".
Proof. reflexivity. Qed.
Example toString_123e20 : Number_toString (Finite true [d1;d2;d3] 21) = "-123000000000000000000".
Proof. reflexivity. Qed.
Example toString_exp : Number_toString (Finite false [d1;d2;d3] (-8)) = "1.23e-9".
Proof. reflexivity. Qed.
Example toString_arr : ToString (JArr [JNum (Finite false [d2] 1); JNull; JStr "a"]) = Some "2,,a".
Proof. reflexivity. Qed.
Example parseInt_hex : parseInt (JStr "  -0x1F") = Some (IntVal (-31)).
Proof. reflexivity. Qed.
Example parseInt_abc : parseInt (JStr "abc") = Some IntNaN.
Proof. reflexivity. Qed.

(** ** parseInt on the rendering of a number *)

Section ParseInt.

Lemma radix_val_acc R ds acc :
  fold_left (fun a d => a * R + d) ds acc
  = acc * R ^ Z.of_nat (length ds) + radix_val R ds.
Proof.
  unfold radix_val. revert acc.
  induction ds as [|d ds IH]; intros acc; simpl fold_left.
  - simpl. lia.
  - rewrite IH, (IH (0 * R + d)).
    rewrite length_cons, Nat2Z.inj_succ, Z.pow_succ_r by lia. ring.
Qed.

Lemma radix_val_app R a b :
  radix_val R (a ++ b) = radix_val R a * R ^ Z.of_nat (length b) + radix_val R b.
Proof.
  unfold radix_val at 1. rewrite fold_left_app.
  rewrite radix_val_acc. reflexivity.
Qed.

Lemma radix_val_digits ds : radix_val 10 (map digit_val ds) = digits_val ds.
Proof.
  unfold radix_val, digits_val. generalize 0.
  induction ds as [|d ds IH]; intros acc; simpl; [reflexivity | apply IH].
Qed.

Lemma digits_val_app a b :
  digits_val (a ++ b) = digits_val a * 10 ^ Z.of_nat (length b) + digits_val b.
Proof.
  rewrite <- !radix_val_digits, map_app, radix_val_app, length_map. reflexivity.
Qed.

Lemma digits_val_bound ds : 0 <= digits_val ds < 10 ^ Z.of_nat (length ds).
Proof.
  induction ds as [|d ds IH] using rev_ind.
  - cbn. lia.
  - rewrite digits_val_app, length_app. simpl length.
    rewrite Nat2Z.inj_add, Z.pow_add_r by lia.
    change (digits_val [d]) with (digit_val d).
    assert (0 <= digit_val d < 10) by (destruct d; simpl; lia).
    simpl Z.of_nat. nia.
Qed.

Lemma radix_val_zeros m : radix_val 10 (repeat 0 m) = 0.
Proof.
  induction m as [|m IH]; [reflexivity|].
  change (repeat 0 (S m)) with ([0] ++ repeat 0 m).
  rewrite radix_val_app, IH. reflexivity.
Qed.

Lemma radix_digit_char d : radix_digit 10 (digit_char d) = Some (digit_val d).
Proof. destruct d; reflexivity. Qed.

Lemma radix_prefix_chars ds rest :
  radix_prefix 10 (chars ds ++ rest) = map digit_val ds ++ radix_prefix 10 rest.
Proof.
  induction ds as [|d ds IH]; simpl; [reflexivity|].
  rewrite radix_digit_char, IH. reflexivity.
Qed.

Lemma radix_prefix_zeros m :
  radix_prefix 10 (repeat "0"%char m) = repeat 0 m.
Proof. induction m as [|m IH]; simpl; [reflexivity | now rewrite IH]. Qed.

Lemma plain_char_digit d : plain_char (digit_char d) = true.
Proof. destruct d; reflexivity. Qed.

Lemma strip_prefix_plain c1 s :
  forallb plain_char (c1 :: s) = true -> strip_prefix (c1 :: s) = (10, c1 :: s).
Proof.
  intros H. destruct s as [|c2 s]; simpl in H.
  - destruct c1 as [[] [] [] [] [] [] [] []]; reflexivity.
  - apply andb_true_iff in H as [_ H]. apply andb_true_iff in H as [H _].
    destruct c2 as [[] [] [] [] [] [] [] []]; try discriminate H;
      destruct c1 as [[] [] [] [] [] [] [] []]; reflexivity.
Qed.

Lemma forallb_chars ds : forallb plain_char (chars ds) = true.
Proof.
  induction ds as [|d ds IH]; simpl; [reflexivity|].
  now rewrite plain_char_digit, IH.
Qed.

Lemma forallb_zeros m : forallb plain_char (repeat "0"%char m) = true.
Proof. induction m as [|m IH]; simpl; [reflexivity | exact IH]. Qed.

(** A text that starts with a digit is read in radix 10 from its start. *)
Lemma parse_plain (neg : bool) (body : list ascii) d rest :
  body = digit_char d :: rest ->
  forallb plain_char body = true ->
  parseInt_string (string_of_list_ascii (if neg then "-"%char :: body else body))
  = IntVal ((if neg then -1 else 1) * radix_val 10 (radix_prefix 10 body)).
Proof.
  intros -> Hplain. unfold parseInt_string.
  rewrite list_ascii_of_string_of_list_ascii.
  assert (Hs : strip_sign (trim_start
                 (if neg then "-"%char :: digit_char d :: rest
                  else digit_char d :: rest))
               = ((if neg then -1 else 1), digit_char d :: rest)).
  { destruct neg; [reflexivity|]. destruct d; reflexivity. }
  rewrite Hs, (strip_prefix_plain _ _ Hplain).
  simpl radix_prefix. rewrite radix_digit_char. reflexivity.
Qed.

Lemma Qtrunc_inject z : Qtrunc (inject_Z z) = z.
Proof. unfold Qtrunc; simpl. apply Z.quot_1_r. Qed.

Lemma Qtrunc_make (neg : bool) m p :
  0 <= m ->
  Qtrunc (Qmake (if neg then - m else m) p) = (if neg then -1 else 1) * (m / Zpos p).
Proof.
  intros Hm. unfold Qtrunc; simpl Qnum; simpl Qden.
  destruct neg.
  - rewrite Z.quot_opp_l by lia. rewrite Z.quot_div_nonneg by lia. lia.
  - rewrite Z.quot_div_nonneg by lia. lia.
Qed.

(** A number printed without exponent parses to its integer part. *)
Lemma parseInt_plain_number neg s n :
  s <> [] -> -5 <= n <= 21 ->
  exists v, Number_value (Finite neg s n) = Some v
            /\ parseInt (JNum (Finite neg s n)) = Some (IntVal (Qtrunc v)).
Proof.
  intros Hs Hn. eexists; split; [reflexivity|].
  unfold parseInt. simpl ToString. f_equal.
  destruct s as [|d s']; [congruence|]. clear Hs.
  set (s := d :: s'). set (k := Z.of_nat (length s)).
  assert (Hk : 1 <= k) by (subst k s; rewrite length_cons; lia).
  pose proof (digits_val_bound s) as Hb. fold k in Hb.
  unfold Number_toString. fold k.
  destruct (Z.leb_spec k n) as [Hkn|Hkn].
  - (* digits followed by zeros *)
    replace (n <=? 21) with true by (symmetry; apply Z.leb_le; lia).
    cbn [andb].
    erewrite parse_plain with (d := d).
    2: reflexivity.
    2: { subst s. change (chars (d :: s')) with (digit_char d :: chars s').
         cbn [app forallb]. rewrite plain_char_digit, forallb_app, forallb_chars,
           forallb_zeros. reflexivity. }
    rewrite radix_prefix_chars, radix_prefix_zeros, radix_val_app,
      radix_val_zeros, radix_val_digits, repeat_length, Z2Nat.id by lia.
    rewrite Qtrunc_inject. f_equal. destruct neg; ring.
  - destruct (Z.ltb_spec 0 n) as [H0|H0].
    + (* digits, point, digits *)
      replace (n <=? 21) with true by (symmetry; apply Z.leb_le; lia).
      cbn [andb].
      assert (Htake : take (Z.to_nat n) s = d :: take (Z.to_nat n - 1) s').
      { subst s. destruct (Z.to_nat n) as [|m] eqn:E; [lia|].
        simpl. now rewrite Nat.sub_0_r. }
      erewrite parse_plain with (d := d).
      2: { rewrite Htake. reflexivity. }
      2: { rewrite forallb_app, forallb_chars. cbn [forallb].
           rewrite forallb_chars. reflexivity. }
      rewrite radix_prefix_chars. cbn [radix_prefix].
      change (radix_digit 10 ".") with (@None Z). cbn [radix_prefix].
      rewrite app_nil_r, radix_val_digits.
      assert (Hp : 0 < 10 ^ (k - n)) by (apply Z.pow_pos_nonneg; lia).
      rewrite Qtrunc_make by lia. f_equal. f_equal.
      rewrite Z2Pos.id by lia.
      rewrite <- (take_drop (Z.to_nat n) s) in Hb |- * at 2.
      rewrite digits_val_app.
      assert (Hlen : Z.of_nat (length (drop (Z.to_nat n) s)) = k - n).
      { rewrite length_drop. subst k. lia. }
      rewrite Hlen.
      pose proof (digits_val_bound (drop (Z.to_nat n) s)) as Hd.
      rewrite Hlen in Hd.
      rewrite Z.div_add_l by lia. rewrite (Z.div_small (digits_val _)) by lia.
      lia.
    + (* zero, point, zeros, digits *)
      replace (-6 <? n) with true by (symmetry; apply Z.ltb_lt; lia).
      replace (n <=? 0) with true by (symmetry; apply Z.leb_le; lia).
      cbn [andb].
      erewrite parse_plain with (d := d0).
      2: reflexivity.
      2: { cbn [forallb]. rewrite forallb_app, forallb_zeros, forallb_chars.
           reflexivity. }
      cbn [radix_prefix].
      change (radix_digit 10 "0") with (Some 0).
      change (radix_digit 10 ".") with (@None Z).
      assert (Hp : 10 ^ k <= 10 ^ (k - n)) by (apply Z.pow_le_mono_r; lia).
      rewrite Qtrunc_make by lia. f_equal.
      rewrite Z2Pos.id by lia. rewrite Z.div_small by lia.
      destruct neg; reflexivity.
Qed.

End ParseInt.

(** ** Looking a room up *)

Lemma rooms_get_own (rooms : gmap string Room) key r :
  rooms !! key = Some r -> rooms_get rooms key = OwnRoom r.
Proof. intros H. unfold rooms_get. now rewrite H. Qed.

Lemma rooms_get_missing (rooms : gmap string Room) key :
  rooms !! key = None -> inherited key = false -> rooms_get rooms key = Undefined.
Proof. intros H Hi. unfold rooms_get. now rewrite H, Hi. Qed.

Lemma rooms_get_inherited (rooms : gmap string Room) key :
  rooms !! key = None -> inherited key = true -> rooms_get rooms key = Inherited key.
Proof. intros H Hi. unfold rooms_get. now rewrite H, Hi. Qed.

Ltac own_room Hkey Hroom :=
  rewrite ?Hkey; cbn beta iota; rewrite ?(rooms_get_own _ _ _ Hroom); cbn beta iota.

(** ** request-next *)

(** C2. In an existing room, request-next on an empty queue sets currentSong
    to null and emits play-song(null) to the room and no queue-updated; on a
    non-empty queue it moves the head into currentSong and emits
    play-song(head) followed by queue-updated(rest). *)
Theorem request_next_emits (rooms : gmap string Room) roomId key r :
  ToPropertyKey roomId = Some key ->
  rooms !! key = Some r ->
  exists rooms' out,
    request_next rooms roomId = Returned rooms' out /\
    match queue r with
    | [] =>
        rooms' = <[key := mkRoom (host r) [] JNull]> rooms /\
        out = [Emit (IoTo roomId) "play-song" [JNull]] /\
        emissions "queue-updated" out = []
    | head :: rest =>
        rooms' = <[key := mkRoom (host r) rest head]> rooms /\
        out = [Emit (IoTo roomId) "play-song" [head];
               Emit (IoTo roomId) "queue-updated" [JArr rest]]
    end.
Proof.
  intros Hkey Hroom. unfold request_next. own_room Hkey Hroom.
  destruct (queue r) as [|head rest]; do 2 eexists;
    (split; [reflexivity | repeat split]).
Qed.

Lemma request_next_emits_witness :
  exists rooms' out,
    request_next {[ "123456" := mkRoom "h" [] (JStr "a") ]} (JStr "123456")
    = Returned rooms' out /\
    rooms' = <["123456" := mkRoom "h" [] JNull]>
               {[ "123456" := mkRoom "h" [] (JStr "a") ]} /\
    out = [Emit (IoTo (JStr "123456")) "play-song" [JNull]] /\
    emissions "queue-updated" out = [].
Proof.
  exact (request_next_emits {[ "123456" := mkRoom "h" [] (JStr "a") ]}
           (JStr "123456") "123456" (mkRoom "h" [] (JStr "a"))
           eq_refl eq_refl).
Defined.

(** ** clear-queue *)

(** C4. For an existing room, clear-queue leaves the room with an empty queue
    and the currentSong it had, touches no other room, and emits
    queue-updated with the empty queue to the room. *)
Theorem clear_queue_keeps_currentSong (rooms : gmap string Room) roomId key r :
  ToPropertyKey roomId = Some key ->
  rooms !! key = Some r ->
  exists rooms',
    clear_queue rooms roomId
    = Returned rooms' [Emit (IoTo roomId) "queue-updated" [JArr []]] /\
    rooms' !! key = Some (mkRoom (host r) [] (currentSong r)) /\
    forall other, other <> key -> rooms' !! other = rooms !! other.
Proof.
  intros Hkey Hroom. unfold clear_queue. own_room Hkey Hroom.
  eexists; split; [reflexivity|]. split.
  - apply lookup_insert_eq.
  - intros other Hne. now apply lookup_insert_ne.
Qed.

Lemma clear_queue_keeps_currentSong_witness :
  exists rooms',
    clear_queue {[ "123456" := mkRoom "h" [JStr "b"] (JStr "a") ]} (JStr "123456")
    = Returned rooms' [Emit (IoTo (JStr "123456")) "queue-updated" [JArr []]] /\
    rooms' !! "123456" = Some (mkRoom "h" [] (JStr "a")) /\
    forall other, other <> "123456" ->
      rooms' !! other
      = ({[ "123456" := mkRoom "h" [JStr "b"] (JStr "a") ]} : gmap string Room) !! other.
Proof.
  exact (clear_queue_keeps_currentSong
           {[ "123456" := mkRoom "h" [JStr "b"] (JStr "a") ]}
           (JStr "123456") "123456" (mkRoom "h" [JStr "b"] (JStr "a"))
           eq_refl eq_refl).
Defined.

(** ** skip-song, toggle-play, set-volume *)

(** C5. For an existing room and any sender, skip-song, toggle-play and
    set-volume change nothing and make one emission each, addressed with
    [socket.to] to the group named by the room's host id: never to the room.
    Where only the host is in the group of its own id, whoever receives it is
    the host and is not the sender; so the host receives it when another
    connection sends, and nobody does when the host sends. *)
Theorem controls_reach_host_only (rooms : gmap string Room) sender roomId key r
    (members : Value -> list string) :
  ToPropertyKey roomId = Some key ->
  rooms !! key = Some r ->
  (forall c, c ∈ members (JStr (host r)) -> c = host r) ->
  handle rooms sender (SkipSong roomId)
  = Returned rooms [Emit (SocketTo (JStr (host r))) "force-skip" []]
  /\ handle rooms sender (TogglePlay roomId)
     = Returned rooms [Emit (SocketTo (JStr (host r))) "toggle-play" []]
  /\ (forall volume,
        handle rooms sender (SetVolume roomId volume)
        = Returned rooms [Emit (SocketTo (JStr (host r))) "set-volume" [volume]])
  /\ (forall c, c ∈ recipients members sender (SocketTo (JStr (host r))) ->
                c = host r /\ c <> sender)
  /\ (sender = host r ->
      recipients members sender (SocketTo (JStr (host r))) = [])
  /\ (sender <> host r -> members (JStr (host r)) = [host r] ->
      recipients members sender (SocketTo (JStr (host r))) = [host r]).
Proof.
  intros Hkey Hroom Hgroup.
  split; [|split; [|split]].
  1-3: intros; simpl; unfold skip_song, toggle_play, set_volume;
       now own_room Hkey Hroom.
  split; [|split].
  - intros c Hc. simpl in Hc. apply list_elem_of_filter in Hc as [Hne Hin].
    split; [now apply Hgroup | exact Hne].
  - intros ->. simpl.
    induction (members (JStr (host r))) as [|c l IH]; [reflexivity|].
    rewrite filter_cons. destruct (decide (c <> host r)) as [Hne|_].
    + exfalso. apply Hne, Hgroup. now left.
    + apply IH. intros c' Hc'. apply Hgroup. now right.
  - intros Hne Hm. simpl. rewrite Hm, filter_cons.
    destruct (decide (host r <> sender)) as [_|Heq]; [reflexivity|].
    exfalso. apply Heq. congruence.
Qed.

Lemma controls_reach_host_only_witness :
  handle {[ "123456" := mkRoom "h" [] JNull ]} "g" (SkipSong (JStr "123456"))
  = Returned {[ "123456" := mkRoom "h" [] JNull ]}
             [Emit (SocketTo (JStr "h")) "force-skip" []]
  /\ recipients (fun g => match g with JStr s => [s] | _ => [] end) "g"
       (SocketTo (JStr "h")) = ["h"].
Proof.
  pose proof (controls_reach_host_only
                {[ "123456" := mkRoom "h" [] JNull ]} "g" (JStr "123456")
                "123456" (mkRoom "h" [] JNull)
                (fun g => match g with JStr s => [s] | _ => [] end)
                eq_refl eq_refl) as H.
  assert (Hgroup : forall c : string, c ∈ ["h"] -> c = "h").
  { intros c Hc. apply list_elem_of_singleton in Hc. exact Hc. }
  destruct (H Hgroup) as (Hskip & _ & _ & _ & _ & Hrec).
  split; [exact Hskip|]. apply Hrec; [discriminate | reflexivity].
Defined.

(** ** Additions followed by request-next *)

Lemma run_app rooms e1 e2 rooms1 out1 :
  run rooms e1 = Returned rooms1 out1 ->
  run rooms (e1 ++ e2)
  = match run rooms1 e2 with
    | Returned rooms2 out2 => Returned rooms2 (out1 ++ out2)
    | Threw => Threw
    | WroteBuiltin name out2 => WroteBuiltin name (out1 ++ out2)
    end.
Proof.
  revert rooms rooms1 out1.
  induction e1 as [|[c e] e1 IH]; intros rooms rooms1 out1 H; simpl in *.
  - injection H as <- <-. destruct (run rooms e2); reflexivity.
  - destruct (handle rooms c e) as [rooms' out| |]; try discriminate.
    destruct (run rooms' e1) as [rooms'' out'| |] eqn:E; try discriminate.
    injection H as <- <-.
    rewrite (IH _ _ _ E).
    destruct (run rooms'' e2); try reflexivity; now rewrite app_assoc.
Qed.

Lemma played_app out1 out2 : played (out1 ++ out2) = played out1 ++ played out2.
Proof.
  unfold played, emissions. now rewrite flat_map_app, map_app, concat_app.
Qed.

Section OneRoom.

Variable roomId : Value.
Variable key : string.
Hypothesis Hkey : ToPropertyKey roomId = Some key.

Lemma run_additions adds : forall (rooms : gmap string Room) r,
  rooms !! key = Some r ->
  exists rooms' out,
    run rooms (additions roomId adds) = Returned rooms' out /\
    played out = [] /\
    rooms' !! key
    = Some (mkRoom (host r) (queue r ++ map snd adds) (currentSong r)).
Proof.
  induction adds as [|[c song] adds IH]; intros rooms r Hroom.
  - exists rooms, []. repeat split. rewrite Hroom.
    destruct r; simpl. now rewrite app_nil_r.
  - simpl. unfold add_to_queue. own_room Hkey Hroom.
    destruct (IH (<[key := mkRoom (host r) (queue r ++ [song]) (currentSong r)]> rooms)
                 (mkRoom (host r) (queue r ++ [song]) (currentSong r)))
      as (rooms' & out & Hrun & Hplayed & Hfinal).
    { apply lookup_insert_eq. }
    rewrite Hrun. do 2 eexists. split; [reflexivity|]. split.
    + exact Hplayed.
    + rewrite Hfinal. simpl. now rewrite <- app_assoc.
Qed.

Lemma run_requests nexts : forall (rooms : gmap string Room) r,
  rooms !! key = Some r ->
  (length nexts <= length (queue r))%nat ->
  exists rooms' out,
    run rooms (requests roomId nexts) = Returned rooms' out /\
    played out = take (length nexts) (queue r) /\
    rooms' !! key
    = Some (mkRoom (host r) (drop (length nexts) (queue r))
              (default (currentSong r) (last (take (length nexts) (queue r))))).
Proof.
  induction nexts as [|c nexts IH]; intros rooms r Hroom Hlen.
  - exists rooms, []. repeat split. rewrite Hroom. now destruct r.
  - simpl. unfold request_next. own_room Hkey Hroom.
    destruct (queue r) as [|head rest] eqn:Hq; simpl in Hlen; [lia|].
    destruct (IH (<[key := mkRoom (host r) rest head]> rooms)
                 (mkRoom (host r) rest head))
      as (rooms' & out & Hrun & Hplayed & Hfinal).
    { apply lookup_insert_eq. }
    { simpl. lia. }
    rewrite Hrun. do 2 eexists. split; [reflexivity|]. split.
    + rewrite played_app, Hplayed. reflexivity.
    + rewrite Hfinal. simpl. rewrite last_cons.
      now destruct (last (take (length nexts) rest)).
Qed.

End OneRoom.

(** C1. In an existing room, after any additions and then [n] request-next
    events, [n] at most the number of queued items, the songs announced are
    the first [n] items in insertion order, currentSong is the [n]-th of
    them and the queue holds the items after it. *)
Theorem request_next_fifo (rooms : gmap string Room) roomId key r
    (adds : list (string * Value)) (nexts : list string) :
  ToPropertyKey roomId = Some key ->
  rooms !! key = Some r ->
  (length nexts <= length (queue r ++ map snd adds))%nat ->
  exists rooms' out,
    run rooms (additions roomId adds ++ requests roomId nexts)
    = Returned rooms' out /\
    played out = take (length nexts) (queue r ++ map snd adds) /\
    rooms' !! key
    = Some (mkRoom (host r)
              (drop (length nexts) (queue r ++ map snd adds))
              (default (currentSong r)
                 (last (take (length nexts) (queue r ++ map snd adds))))).
Proof.
  intros Hkey Hroom Hlen.
  destruct (run_additions roomId key Hkey adds rooms r Hroom)
    as (rooms1 & out1 & Hrun1 & Hplayed1 & Hroom1).
  destruct (run_requests roomId key Hkey nexts rooms1 _ Hroom1 Hlen)
    as (rooms2 & out2 & Hrun2 & Hplayed2 & Hroom2).
  exists rooms2, (out1 ++ out2).
  rewrite (run_app _ _ _ _ _ Hrun1), Hrun2.
  split; [reflexivity|]. split.
  - now rewrite played_app, Hplayed1.
  - exact Hroom2.
Qed.

Lemma request_next_fifo_witness :
  exists rooms' out,
    run {[ "123456" := mkRoom "h" [JStr "a"] JNull ]}
      (additions (JStr "123456") [("g", JStr "b"); ("h", JStr "c")]
       ++ requests (JStr "123456") ["h"; "h"])
    = Returned rooms' out /\
    played out = [JStr "a"; JStr "b"] /\
    rooms' !! "123456" = Some (mkRoom "h" [JStr "c"] (JStr "b")).
Proof.
  exact (request_next_fifo {[ "123456" := mkRoom "h" [JStr "a"] JNull ]}
           (JStr "123456") "123456" (mkRoom "h" [JStr "a"] JNull)
           [("g", JStr "b"); ("h", JStr "c")] ["h"; "h"]
           eq_refl eq_refl (le_S 2 2 (le_n 2))).
Defined.

(** ** parseInt on texts *)

Lemma list_ascii_of_string_app a b :
  list_ascii_of_string (a +:+ b) = list_ascii_of_string a ++ list_ascii_of_string b.
Proof. induction a as [|c a IH]; simpl; [reflexivity | now rewrite IH]. Qed.

Lemma strip_prefix_not_hex s :
  hex_prefixed s = false ->
  strip_prefix (list_ascii_of_string s) = (10, list_ascii_of_string s).
Proof.
  destruct s as [|c1 [|c2 s]]; [reflexivity| |].
  - intros _. destruct c1 as [[] [] [] [] [] [] [] []]; reflexivity.
  - destruct c1 as [[] [] [] [] [] [] [] []]; try reflexivity.
    destruct c2 as [[] [] [] [] [] [] [] []]; try reflexivity; discriminate.
Qed.

Lemma strip_prefix_no_digit s :
  radix_prefix 10 s = [] -> strip_prefix s = (10, s).
Proof.
  destruct s as [|c1 s]; [reflexivity|].
  destruct c1 as [[] [] [] [] [] [] [] []]; try reflexivity; discriminate.
Qed.

(** A text that starts with decimal digits parses to the number they write. *)
Lemma parseInt_digit_prefix ds rest :
  ds <> [] ->
  starts_with_digit rest = false ->
  hex_prefixed (digits_string ds +:+ rest) = false ->
  parseInt (JStr (digits_string ds +:+ rest)) = Some (IntVal (digits_val ds)).
Proof.
  intros Hds Hrest Hhex. unfold parseInt. simpl ToString. f_equal.
  unfold parseInt_string.
  pose proof (strip_prefix_not_hex _ Hhex) as Hp.
  rewrite list_ascii_of_string_app in *. unfold digits_string in *.
  rewrite list_ascii_of_string_of_list_ascii in *.
  destruct ds as [|d ds]; [congruence|].
  set (text := chars (d :: ds) ++ list_ascii_of_string rest) in *.
  assert (Hs : strip_sign (trim_start text) = (1, text)).
  { subst text. destruct d; reflexivity. }
  rewrite Hs, Hp. subst text. rewrite radix_prefix_chars.
  assert (Hr : radix_prefix 10 (list_ascii_of_string rest) = []).
  { destruct rest as [|c rest]; [reflexivity|]. simpl in *.
    destruct (radix_digit 10 c); [discriminate | reflexivity]. }
  rewrite Hr, app_nil_r. cbn [map].
  change (digit_val d :: map digit_val ds) with (map digit_val (d :: ds)).
  now rewrite radix_val_digits, Z.mul_1_l.
Qed.

(** A text with no leading digit parses to NaN. *)
Lemma parseInt_no_digit s :
  leading_digits s = [] -> parseInt (JStr s) = Some IntNaN.
Proof.
  unfold leading_digits, parseInt, parseInt_string. cbn [ToString].
  intros H.
  destruct (strip_sign (trim_start (list_ascii_of_string s))) as [sign s1].
  simpl snd in H.
  now rewrite (strip_prefix_no_digit _ H), H.
Qed.

Lemma Qtrunc_integer v z : (v == inject_Z z)%Q -> Qtrunc v = z.
Proof.
  unfold Qeq, Qtrunc. simpl. intros H.
  rewrite Z.mul_1_r in H. rewrite H. apply Z.quot_mul. lia.
Qed.

(** ** remove-from-queue and play-specific *)

Lemma index_acts (rooms : gmap string Room) roomId key r index t :
  ToPropertyKey roomId = Some key ->
  rooms !! key = Some r ->
  parseInt index = Some (IntVal t) ->
  0 <= t < Z.of_nat (length (queue r)) ->
  remove_from_queue rooms roomId index
  = Returned (<[key := mkRoom (host r) (splice1 t (queue r)) (currentSong r)]> rooms)
             [Emit (IoTo roomId) "queue-updated" [JArr (splice1 t (queue r))]]
  /\ play_specific rooms roomId index
     = Returned (<[key := mkRoom (host r) (splice1 t (queue r))
                            (nth (Z.to_nat t) (queue r) JUndefined)]> rooms)
                [Emit (IoTo roomId) "play-song" [nth (Z.to_nat t) (queue r) JUndefined];
                 Emit (IoTo roomId) "queue-updated" [JArr (splice1 t (queue r))]].
Proof.
  intros Hkey Hroom Hparse Ht.
  unfold remove_from_queue, play_specific. rewrite Hparse. own_room Hkey Hroom.
  unfold in_range.
  replace (0 <=? t) with true by (symmetry; apply Z.leb_le; lia).
  replace (t <? Z.of_nat (length (queue r))) with true
    by (symmetry; apply Z.ltb_lt; lia).
  split; reflexivity.
Qed.

Lemma index_ignored (rooms : gmap string Room) roomId key r index idx :
  ToPropertyKey roomId = Some key ->
  rooms !! key = Some r ->
  parseInt index = Some idx ->
  in_range idx (length (queue r)) = false ->
  remove_from_queue rooms roomId index = Returned rooms []
  /\ play_specific rooms roomId index = Returned rooms [].
Proof.
  intros Hkey Hroom Hparse Hrange.
  unfold remove_from_queue, play_specific. rewrite Hparse. own_room Hkey Hroom.
  destruct idx as [|z]; [split; reflexivity|]. now rewrite Hrange.
Qed.

(** C3, as it holds. For an existing room, remove-from-queue and
    play-specific change nothing and emit nothing whenever [parseInt(index)]
    is NaN or lies outside [0, length of the queue); this covers every
    number that is an integer outside that range and is printed without
    exponent (magnitude below 1e21). *)
Theorem out_of_range_index_is_ignored (rooms : gmap string Room) roomId key r :
  ToPropertyKey roomId = Some key ->
  rooms !! key = Some r ->
  (forall index idx,
      parseInt index = Some idx ->
      in_range idx (length (queue r)) = false ->
      remove_from_queue rooms roomId index = Returned rooms []
      /\ play_specific rooms roomId index = Returned rooms [])
  /\
  (forall neg s n v z,
      s <> [] -> -5 <= n <= 21 ->
      Number_value (Finite neg s n) = Some v ->
      (v == inject_Z z)%Q ->
      z < 0 \/ Z.of_nat (length (queue r)) <= z ->
      remove_from_queue rooms roomId (JNum (Finite neg s n)) = Returned rooms []
      /\ play_specific rooms roomId (JNum (Finite neg s n)) = Returned rooms []).
Proof.
  intros Hkey Hroom. split.
  - intros index idx. exact (index_ignored rooms roomId key r index idx Hkey Hroom).
  - intros neg s n v z Hs Hn Hv Hz Hout.
    destruct (parseInt_plain_number neg s n Hs Hn) as (v' & Hv' & Hparse).
    rewrite Hv in Hv'. injection Hv' as <-.
    rewrite (Qtrunc_integer _ _ Hz) in Hparse.
    apply (index_ignored rooms roomId key r _ _ Hkey Hroom Hparse).
    unfold in_range. destruct Hout as [Hneg | Hbig].
    + replace (0 <=? z) with false by (symmetry; apply Z.leb_gt; lia).
      reflexivity.
    + replace (z <? Z.of_nat (length (queue r))) with false
        by (symmetry; apply Z.ltb_ge; lia).
      apply andb_false_r.
Qed.

Lemma out_of_range_index_is_ignored_witness :
  remove_from_queue {[ "123456" := mkRoom "h" [JStr "a"] JNull ]}
    (JStr "123456") (JNum (Finite true [d3] 1))
  = Returned {[ "123456" := mkRoom "h" [JStr "a"] JNull ]} []
  /\ play_specific {[ "123456" := mkRoom "h" [JStr "a"] JNull ]}
       (JStr "123456") (JNum (Finite true [d3] 1))
     = Returned {[ "123456" := mkRoom "h" [JStr "a"] JNull ]} [].
Proof.
  refine (proj2 (out_of_range_index_is_ignored
                   {[ "123456" := mkRoom "h" [JStr "a"] JNull ]} (JStr "123456")
                   "123456" (mkRoom "h" [JStr "a"] JNull) eq_refl eq_refl)
                true [d3] 1 (inject_Z (-3)) (-3) _ _ _ _ _).
  - discriminate.
  - lia.
  - reflexivity.
  - reflexivity.
  - left. lia.
Defined.

(** C3 as stated fails: the index -0.5 lies outside [0, 2), yet
    [parseInt(-0.5)] is [-0], which passes both comparisons, and position 0
    is removed (and, for play-specific, played). *)
Lemma index_minus_half_acts :
  Number_value (Finite true [d5] 0) = Some (-5 # 10)%Q
  /\ (-5 # 10 < 0)%Q
  /\ remove_from_queue {[ "123456" := mkRoom "h" [JStr "a"; JStr "b"] JNull ]}
       (JStr "123456") (JNum (Finite true [d5] 0))
     = Returned {[ "123456" := mkRoom "h" [JStr "b"] JNull ]}
                [Emit (IoTo (JStr "123456")) "queue-updated" [JArr [JStr "b"]]]
  /\ play_specific {[ "123456" := mkRoom "h" [JStr "a"; JStr "b"] JNull ]}
       (JStr "123456") (JNum (Finite true [d5] 0))
     = Returned {[ "123456" := mkRoom "h" [JStr "b"] (JStr "a") ]}
                [Emit (IoTo (JStr "123456")) "play-song" [JStr "a"];
                 Emit (IoTo (JStr "123456")) "queue-updated" [JArr [JStr "b"]]]
  /\ remove_from_queue {[ "123456" := mkRoom "h" [JStr "a"; JStr "b"] JNull ]}
       (JStr "123456") (JNum (Finite true [d5] 0))
     <> Returned {[ "123456" := mkRoom "h" [JStr "a"; JStr "b"] JNull ]} [].
Proof.
  split; [reflexivity|]. split; [reflexivity|].
  split; [vm_compute; reflexivity|]. split; [vm_compute; reflexivity|].
  vm_compute. discriminate.
Qed.

(** C10, as it holds. The index goes through [parseInt] before the range
    check, and for an existing room both operations act on the position
    [parseInt(index)] whenever it lies in [0, length of the queue).  For a
    number printed without exponent (magnitude from 1e-6 up to, not
    including, 1e21) that position is the number truncated toward zero; for
    a text that begins with decimal digits (and not with 0x) it is the
    number those digits write; a text with no leading digit parses to NaN,
    and on NaN both operations do nothing. *)
Theorem index_is_coerced_by_parseInt (rooms : gmap string Room) roomId key r :
  ToPropertyKey roomId = Some key ->
  rooms !! key = Some r ->
  (forall index t,
      parseInt index = Some (IntVal t) ->
      0 <= t < Z.of_nat (length (queue r)) ->
      remove_from_queue rooms roomId index
      = Returned (<[key := mkRoom (host r) (splice1 t (queue r)) (currentSong r)]> rooms)
                 [Emit (IoTo roomId) "queue-updated" [JArr (splice1 t (queue r))]]
      /\ play_specific rooms roomId index
         = Returned (<[key := mkRoom (host r) (splice1 t (queue r))
                                (nth (Z.to_nat t) (queue r) JUndefined)]> rooms)
                    [Emit (IoTo roomId) "play-song"
                       [nth (Z.to_nat t) (queue r) JUndefined];
                     Emit (IoTo roomId) "queue-updated"
                       [JArr (splice1 t (queue r))]])
  /\ (forall neg s n,
         s <> [] -> -5 <= n <= 21 ->
         exists v, Number_value (Finite neg s n) = Some v
                   /\ parseInt (JNum (Finite neg s n)) = Some (IntVal (Qtrunc v)))
  /\ (forall ds rest,
         ds <> [] ->
         starts_with_digit rest = false ->
         hex_prefixed (digits_string ds +:+ rest) = false ->
         parseInt (JStr (digits_string ds +:+ rest)) = Some (IntVal (digits_val ds)))
  /\ (forall s, leading_digits s = [] -> parseInt (JStr s) = Some IntNaN)
  /\ (forall index,
         parseInt index = Some IntNaN ->
         remove_from_queue rooms roomId index = Returned rooms []
         /\ play_specific rooms roomId index = Returned rooms []).
Proof.
  intros Hkey Hroom. repeat split.
  - now apply (index_acts rooms roomId key r index t).
  - now apply (index_acts rooms roomId key r index t).
  - now apply parseInt_plain_number.
  - now apply parseInt_digit_prefix.
  - now apply parseInt_no_digit.
  - now apply (index_ignored rooms roomId key r index IntNaN).
  - now apply (index_ignored rooms roomId key r index IntNaN).
Qed.

Lemma index_is_coerced_by_parseInt_witness :
  remove_from_queue {[ "123456" := mkRoom "h" [JStr "a"; JStr "b"] JNull ]}
    (JStr "123456") (JStr "1abc")
  = Returned (<["123456" := mkRoom "h" [JStr "a"] JNull]>
                {[ "123456" := mkRoom "h" [JStr "a"; JStr "b"] JNull ]})
             [Emit (IoTo (JStr "123456")) "queue-updated" [JArr [JStr "a"]]].
Proof.
  refine (proj1 (proj1 (index_is_coerced_by_parseInt
                   {[ "123456" := mkRoom "h" [JStr "a"; JStr "b"] JNull ]}
                   (JStr "123456") "123456"
                   (mkRoom "h" [JStr "a"; JStr "b"] JNull) eq_refl eq_refl)
                 (JStr "1abc") 1 _ _)); [reflexivity | simpl; lia].
Defined.

(** C10 as stated fails: 5e-7 is not an integer and truncates to 0, which is
    a position of the one-item queue, but it prints as "5e-7", so
    [parseInt] reads 5 and both operations do nothing. *)
Lemma index_5e_7_is_not_truncated :
  Number_value (Finite false [d5] (-6)) = Some (5 # 10000000)%Q
  /\ (0 < 5 # 10000000)%Q /\ (5 # 10000000 < 1)%Q
  /\ Qtrunc (5 # 10000000) = 0
  /\ parseInt (JNum (Finite false [d5] (-6))) = Some (IntVal 5)
  /\ remove_from_queue {[ "123456" := mkRoom "h" [JStr "a"] JNull ]}
       (JStr "123456") (JNum (Finite false [d5] (-6)))
     = Returned {[ "123456" := mkRoom "h" [JStr "a"] JNull ]} []
  /\ play_specific {[ "123456" := mkRoom "h" [JStr "a"] JNull ]}
       (JStr "123456") (JNum (Finite false [d5] (-6)))
     = Returned {[ "123456" := mkRoom "h" [JStr "a"] JNull ]} [].
Proof. repeat split. Qed.

(** ** Room ids with no room *)

Lemma join_room_existing (rooms : gmap string Room) roomId key r :
  ToPropertyKey roomId = Some key ->
  rooms !! key = Some r ->
  join_room rooms roomId
  = Returned rooms
      [Join roomId;
       Emit ToSocket "room-joined"
         [JObj [("roomId", roomId); ("queue", JArr (queue r));
                ("currentSong", currentSong r)]]].
Proof. intros Hkey Hroom. unfold join_room. now own_room Hkey Hroom. Qed.

Lemma join_room_missing (rooms : gmap string Room) roomId key :
  ToPropertyKey roomId = Some key ->
  rooms !! key = None ->
  inherited key = false ->
  join_room rooms roomId
  = Returned rooms [Emit ToSocket "error" [JStr "Room not found"]].
Proof.
  intros Hkey Hroom Hi. unfold join_room.
  now rewrite Hkey, (rooms_get_missing _ _ Hroom Hi).
Qed.

(** C6 at an inherited key.  No room is stored under "constructor", but
    [rooms["constructor"]] is the inherited [Object] function, which is
    truthy: the sender is joined to the group and receives room-joined with
    undefined queue and currentSong, not the error. *)
Theorem join_room_inherited_key :
  (∅ : gmap string Room) !! "constructor" = None
  /\ join_room ∅ (JStr "constructor")
     = Returned ∅
         [Join (JStr "constructor");
          Emit ToSocket "room-joined"
            [JObj [("roomId", JStr "constructor"); ("queue", JUndefined);
                   ("currentSong", JUndefined)]]]
  /\ emissions "error" [Join (JStr "constructor");
          Emit ToSocket "room-joined"
            [JObj [("roomId", JStr "constructor"); ("queue", JUndefined);
                   ("currentSong", JUndefined)]]] = [].
Proof. repeat split. Qed.

(** Away from the inherited keys and from indexes that cannot be converted,
    an event for a room id with no room does nothing. *)
Lemma missing_room_is_ignored (rooms : gmap string Room) sender e roomId key :
  room_of e = Some roomId ->
  ToPropertyKey roomId = Some key ->
  rooms !! key = None ->
  inherited key = false ->
  (forall index, index_of e = Some index -> parseInt index <> None) ->
  handle rooms sender e = Returned rooms [].
Proof.
  intros He Hkey Hroom Hi Hidx.
  pose proof (rooms_get_missing _ _ Hroom Hi) as Hget.
  destruct e; simpl in He; try discriminate; injection He as ->; simpl;
    unfold request_sync, add_to_queue, player_state, request_next, skip_song,
      clear_queue, remove_from_queue, play_specific, toggle_play, set_volume;
    try (rewrite Hkey, Hget; reflexivity).
  all: destruct (parseInt index) eqn:E;
    [ now rewrite Hkey, Hget | now destruct (Hidx index eq_refl) ].
Qed.

(** C7 at an inherited key.  No room is stored under "constructor", yet the
    existence test passes, and the handlers that go on to read
    [rooms[roomId].queue] throw a TypeError; clear-queue assigns a [queue]
    property to the built-in function.  So does every handler whose room id
    is an object with a [toString] field, on the conversion to a key. *)
Theorem inherited_key_throws (song : Value) :
  (∅ : gmap string Room) !! "constructor" = None
  /\ add_to_queue ∅ (JStr "constructor") song = Threw
  /\ request_next ∅ (JStr "constructor") = Threw
  /\ remove_from_queue ∅ (JStr "constructor") (JNum (Zero false)) = Threw
  /\ play_specific ∅ (JStr "constructor") (JNum (Zero false)) = Threw
  /\ clear_queue ∅ (JStr "constructor")
     = WroteBuiltin "constructor"
         [Emit (IoTo (JStr "constructor")) "queue-updated" [JArr []]]
  /\ request_sync ∅ (JObj [("toString", JNull)]) = Threw.
Proof. repeat split. Qed.

(** ** The search route *)

Section SearchRoute.

Import Search.

Lemma map_videos_spec videos songs :
  map_videos videos = Some songs ->
  length songs = length videos
  /\ map song_id songs = map videoId videos
  /\ map song_title songs = map title videos
  /\ map song_thumbnail songs = map thumbnail videos
  /\ map song_duration songs = map timestamp videos
  /\ map (fun s => Some (song_author s)) songs
     = map (fun v => get_name (author v)) videos.
Proof.
  revert songs. induction videos as [|v videos IH]; intros songs H; simpl in H.
  - injection H as <-. repeat split.
  - destruct (get_name (author v)) as [name|] eqn:En; [|discriminate].
    destruct (map_videos videos) as [songs'|]; [|discriminate].
    injection H as <-. destruct (IH songs' eq_refl) as (H1 & H2 & H3 & H4 & H5 & H6).
    simpl. rewrite H1, H2, H3, H4, H5, H6, En. repeat split.
Qed.

Lemma map_videos_total videos :
  Forall (fun v => get_name (author v) <> None) videos ->
  exists songs, map_videos videos = Some songs.
Proof.
  induction 1 as [|v videos Hv _ [songs IH]]; simpl.
  - now exists [].
  - destruct (get_name (author v)) as [name|]; [|congruence].
    rewrite IH. eauto.
Qed.

(** C8. The search route answers 400 when [q] is missing (or empty); it
    hands the provider the query followed by " karaoke" exactly when the
    karaokeOnly parameter is not the text "false"; it answers 500 when the
    provider fails; and an answer 200 carries at most 15 songs, those of the
    first 15 videos in the provider's order, which is what it answers when
    the provider succeeds with well-formed videos. *)
Theorem search_route (yts : Value -> Lookup) (q param : Value) :
  (truthy q = false ->
   search yts q param = mkResponse 400 (ErrorBody "Query is required"))
  /\ (q = JUndefined ->
      search yts q param = mkResponse 400 (ErrorBody "Query is required"))
  /\ (param = JStr "false" -> searchQuery q (karaokeOnly_of param) = Some q)
  /\ (forall s, param <> JStr "false" -> ToString q = Some s ->
        searchQuery q (karaokeOnly_of param) = Some (JStr (s +:+ " karaoke")))
  /\ (param = JUndefined -> karaokeOnly_of param = true)
  /\ (forall text,
        truthy q = true ->
        searchQuery q (karaokeOnly_of param) = Some text ->
        yts text = Rejected ->
        search yts q param = mkResponse 500 (ErrorBody "Failed to search YouTube"))
  /\ (forall songs,
        search yts q param = mkResponse 200 (Songs songs) ->
        exists text videos,
          searchQuery q (karaokeOnly_of param) = Some text
          /\ yts text = Resolved videos
          /\ (length songs <= 15)%nat
          /\ length songs = length (take 15 videos)
          /\ map song_id songs = map videoId (take 15 videos)
          /\ map song_title songs = map title (take 15 videos))
  /\ (forall text videos,
        truthy q = true ->
        searchQuery q (karaokeOnly_of param) = Some text ->
        yts text = Resolved videos ->
        Forall (fun v => get_name (author v) <> None) (take 15 videos) ->
        exists songs, search yts q param = mkResponse 200 (Songs songs)).
Proof.
  assert (H400 : truthy q = false ->
            search yts q param = mkResponse 400 (ErrorBody "Query is required")).
  { intros H. unfold search. now rewrite H. }
  split; [exact H400|]. split; [intros ->; now apply H400|].
  split; [intros ->; reflexivity|]. split.
  { intros s Hp Hs. unfold searchQuery, karaokeOnly_of.
    destruct param as [| | | |p| |]; try (now rewrite Hs).
    destruct (String.eqb_spec p "false") as [->|_]; [congruence|].
    simpl. now rewrite Hs. }
  split; [intros ->; reflexivity|]. split.
  { intros text Hq Ht Hy. unfold search. now rewrite Hq, Ht, Hy. }
  split.
  - intros songs H. unfold search in H.
    destruct (truthy q); simpl in H; [|discriminate].
    destruct (searchQuery q (karaokeOnly_of param)) as [text|]; [|discriminate].
    destruct (yts text) as [|videos] eqn:Hy; [discriminate|].
    destruct (map_videos (take 15 videos)) as [songs'|] eqn:Hm; [|discriminate].
    injection H as <-.
    destruct (map_videos_spec _ _ Hm) as (H1 & H2 & H3 & _).
    exists text, videos. repeat split; try assumption.
    rewrite H1, length_take. lia.
  - intros text videos Hq Ht Hy Hall. unfold search. rewrite Hq, Ht, Hy. simpl.
    destruct (map_videos_total _ Hall) as [songs Hm]. rewrite Hm. eauto.
Qed.

Lemma search_route_witness :
  search (fun _ => Rejected) JUndefined JUndefined
  = mkResponse 400 (ErrorBody "Query is required").
Proof.
  exact (proj1 (search_route (fun _ => Rejected) JUndefined JUndefined) eq_refl).
Defined.

End SearchRoute.

(** ** Where currentSong comes from *)

Lemma rooms_get_OwnRoom (rooms : gmap string Room) key r :
  rooms_get rooms key = OwnRoom r -> rooms !! key = Some r.
Proof.
  unfold rooms_get. destruct (rooms !! key) as [r'|].
  - now intros [= ->].
  - now destruct (inherited key).
Qed.

Lemma splice1_nth z (q : list Value) :
  0 <= z < Z.of_nat (length q) -> In (nth (Z.to_nat z) q JUndefined) q.
Proof. intros H. apply nth_In. lia. Qed.

(** One handled event: in the new table a room's currentSong is null, or the
    currentSong the room had, or an item of the queue the room had. *)
Lemma handle_currentSong (rooms : gmap string Room) sender e rooms' out :
  handle rooms sender e = Returned rooms' out ->
  forall key r', rooms' !! key = Some r' ->
    currentSong r' = JNull
    \/ exists r, rooms !! key = Some r
                 /\ (currentSong r' = currentSong r
                     \/ In (currentSong r') (queue r)).
Proof.
  intros H key r' Hr'.
  assert (Hsame : rooms' = rooms ->
            currentSong r' = JNull
            \/ exists r, rooms !! key = Some r
                 /\ (currentSong r' = currentSong r
                     \/ In (currentSong r') (queue r))).
  { intros ->. right. exists r'. auto. }
  assert (Hupd : forall k r r1,
            rooms !! k = Some r ->
            rooms' = <[k := r1]> rooms ->
            (currentSong r1 = JNull \/ currentSong r1 = currentSong r
             \/ In (currentSong r1) (queue r)) ->
            currentSong r' = JNull
            \/ exists r, rooms !! key = Some r
                 /\ (currentSong r' = currentSong r
                     \/ In (currentSong r') (queue r))).
  { intros k r r1 Hk -> Hcur.
    destruct (decide (k = key)) as [->|Hne].
    - rewrite lookup_insert_eq in Hr'. injection Hr' as <-.
      destruct Hcur as [?|Hcur]; [now left|]. right. exists r. auto.
    - rewrite lookup_insert_ne in Hr' by exact Hne. right. exists r'. auto. }
  destruct e; simpl in H;
    unfold create_room, join_room, request_sync, add_to_queue, player_state,
      request_next, skip_song, clear_queue, remove_from_queue, play_specific,
      toggle_play, set_volume, disconnect in H.
  - (* create-room *)
    cbv zeta in H. injection H as <- _.
    destruct (decide (generateRoomId floor = key)) as [Heq|Hne].
    + subst key. rewrite lookup_insert_eq in Hr'. injection Hr' as <-. now left.
    + rewrite lookup_insert_ne in Hr' by exact Hne. right. exists r'. auto.
  - destruct (ToPropertyKey roomId); [|discriminate].
    destruct (rooms_get rooms s); injection H as <- _; now apply Hsame.
  - destruct (ToPropertyKey roomId); [|discriminate].
    destruct (rooms_get rooms s); injection H as <- _; now apply Hsame.
  - (* add-to-queue *)
    destruct (ToPropertyKey roomId) as [k|]; [|discriminate].
    destruct (rooms_get rooms k) as [r| |] eqn:Hget; try discriminate.
    + injection H as <- _. apply rooms_get_OwnRoom in Hget.
      eapply Hupd; [exact Hget | reflexivity | simpl; auto].
    + injection H as <- _. now apply Hsame.
  - destruct (ToPropertyKey roomId); [|discriminate].
    destruct (rooms_get rooms s); injection H as <- _; now apply Hsame.
  - (* request-next *)
    destruct (ToPropertyKey roomId) as [k|]; [|discriminate].
    destruct (rooms_get rooms k) as [r| |] eqn:Hget; try discriminate.
    + apply rooms_get_OwnRoom in Hget.
      destruct (queue r) as [|head rest] eqn:Hq; injection H as <- _.
      * eapply Hupd; [exact Hget | reflexivity | simpl; auto].
      * eapply Hupd; [exact Hget | reflexivity |].
        simpl. rewrite Hq. right. right. now left.
    + injection H as <- _. now apply Hsame.
  - destruct (ToPropertyKey roomId); [|discriminate].
    destruct (rooms_get rooms s); injection H as <- _; now apply Hsame.
  - (* clear-queue *)
    destruct (ToPropertyKey roomId) as [k|]; [|discriminate].
    destruct (rooms_get rooms k) as [r| |] eqn:Hget; try discriminate.
    + injection H as <- _. apply rooms_get_OwnRoom in Hget.
      eapply Hupd; [exact Hget | reflexivity | simpl; auto].
    + injection H as <- _. now apply Hsame.
  - (* remove-from-queue *)
    destruct (parseInt index) as [idx|]; [|discriminate].
    destruct (ToPropertyKey roomId) as [k|]; [|discriminate].
    destruct (rooms_get rooms k) as [r| |] eqn:Hget.
    + apply rooms_get_OwnRoom in Hget.
      destruct idx as [|z]; [injection H as <- _; now apply Hsame|].
      destruct (in_range (IntVal z) (length (queue r)));
        injection H as <- _; [|now apply Hsame].
      eapply Hupd; [exact Hget | reflexivity | simpl; auto].
    + destruct (ge_zero idx); [discriminate|].
      injection H as <- _; now apply Hsame.
    + injection H as <- _; now apply Hsame.
  - (* play-specific *)
    destruct (parseInt index) as [idx|]; [|discriminate].
    destruct (ToPropertyKey roomId) as [k|]; [|discriminate].
    destruct (rooms_get rooms k) as [r| |] eqn:Hget.
    + apply rooms_get_OwnRoom in Hget.
      destruct idx as [|z]; [injection H as <- _; now apply Hsame|].
      destruct (in_range (IntVal z) (length (queue r))) eqn:Hin;
        injection H as <- _; [|now apply Hsame].
      eapply Hupd; [exact Hget | reflexivity |].
      simpl. right. right. apply splice1_nth.
      unfold in_range in Hin. apply andb_true_iff in Hin as [H1 H2].
      apply Z.leb_le in H1. apply Z.ltb_lt in H2. lia.
    + destruct (ge_zero idx); [discriminate|].
      injection H as <- _; now apply Hsame.
    + injection H as <- _; now apply Hsame.
  - destruct (ToPropertyKey roomId); [|discriminate].
    destruct (rooms_get rooms s); injection H as <- _; now apply Hsame.
  - destruct (ToPropertyKey roomId); [|discriminate].
    destruct (rooms_get rooms s); injection H as <- _; now apply Hsame.
  - injection H as <- _. now apply Hsame.
Qed.

(** C9. Along every history of the room table, the currentSong of every
    room is null or an item that was in the queue stored under the same room
    id in an earlier table of that history. *)
Theorem currentSong_came_from_queue (rooms : gmap string Room) past :
  history (rooms :: past) ->
  forall key r, rooms !! key = Some r ->
    currentSong r = JNull
    \/ exists earlier r0, earlier ∈ past /\ earlier !! key = Some r0
                          /\ In (currentSong r) (queue r0).
Proof.
  remember (rooms :: past) as h eqn:Hh. intros Hist.
  revert rooms past Hh.
  induction Hist as [|rooms0 past0 sender e rooms' out Hist IH Hstep];
    intros rooms past Hh key r Hr; injection Hh as <- <-.
  - rewrite lookup_empty in Hr. discriminate.
  - destruct (handle_currentSong _ _ _ _ _ Hstep key r Hr)
      as [Hnull | (r0 & Hr0 & [Hcur | Hin])].
    + now left.
    + destruct (IH rooms0 past0 eq_refl key r0 Hr0)
        as [Hnull | (earlier & r1 & Hin & Hlook & Hq)].
      * left. congruence.
      * right. exists earlier, r1. rewrite Hcur.
        split; [now apply elem_of_cons; right | auto].
    + right. exists rooms0, r0. split; [apply elem_of_cons; now left | auto].
Qed.

Lemma currentSong_came_from_queue_witness :
  JStr "a" = JNull
  \/ exists earlier r0,
       earlier ∈ [ ({[ "123456" := mkRoom "h" [JStr "a"] JNull ]} : gmap string Room);
                   {[ "123456" := mkRoom "h" [] JNull ]}; ∅ ]
       /\ earlier !! "123456" = Some r0
       /\ In (JStr "a") (queue r0).
Proof.
  refine (currentSong_came_from_queue
            {[ "123456" := mkRoom "h" [] (JStr "a") ]}
            [ {[ "123456" := mkRoom "h" [JStr "a"] JNull ]};
              {[ "123456" := mkRoom "h" [] JNull ]}; ∅ ]
            _ "123456" (mkRoom "h" [] (JStr "a")) eq_refl).
  refine (history_step _ _ "h" (RequestNext (JStr "123456")) _
            [Emit (IoTo (JStr "123456")) "play-song" [JStr "a"];
             Emit (IoTo (JStr "123456")) "queue-updated" [JArr []]] _ _);
    [| vm_compute; reflexivity].
  refine (history_step _ _ "g" (AddToQueue (JStr "123456") (JStr "a")) _
            [Emit (IoTo (JStr "123456")) "queue-updated" [JArr [JStr "a"]]] _ _);
    [| vm_compute; reflexivity].
  refine (history_step _ _ "h" (CreateRoom 123456) _
            [Join (JStr "123456"); Emit ToSocket "room-created" [JStr "123456"]]
            history_start _).
  vm_compute; reflexivity.
Defined.

(** * Further properties of the handlers *)

(** ** Room ids *)

Section RoomIds.

Import DecimalPos.Unsigned.

Lemma uint_chars u :
  list_ascii_of_string (NilEmpty.string_of_uint u) = chars (uint_digits u).
Proof. induction u; simpl; [reflexivity | f_equal; assumption ..]. Qed.

Lemma uint_digits_usize u : usize u = N.of_nat (length (uint_digits u)).
Proof.
  induction u; simpl usize; simpl uint_digits; rewrite ?length_cons, ?Nat2N.inj_succ;
    [reflexivity | now f_equal ..].
Qed.

Lemma digits_val_cons d ds :
  digits_val (d :: ds) = digit_val d * 10 ^ Z.of_nat (length ds) + digits_val ds.
Proof. change (d :: ds) with ([d] ++ ds). now rewrite digits_val_app. Qed.

Lemma uint_digits_val u :
  digits_val (uint_digits u) = Z.of_N (of_lu (Decimal.rev u)).
Proof.
  induction u; [reflexivity | ..];
    simpl uint_digits; rewrite digits_val_cons;
    unfold Decimal.rev; simpl Decimal.revapp; rewrite of_lu_revapp, IHu;
    rewrite N2Z.inj_add, N2Z.inj_mul, N2Z.inj_pow, uint_digits_usize, nat_N_Z;
    simpl of_lu; simpl digit_val; lia.
Qed.

Lemma to_uint_digits_val m : digits_val (uint_digits (N.to_uint m)) = Z.of_N m.
Proof.
  rewrite uint_digits_val, <- of_uint_alt.
  change (Pos.of_uint (N.to_uint m)) with (N.of_uint (N.to_uint m)).
  now rewrite DecimalN.Unsigned.of_to.
Qed.

Lemma to_uint_digits_head m :
  m <> 0%N ->
  exists d rest, uint_digits (N.to_uint m) = d :: rest /\ 1 <= digit_val d.
Proof.
  intros Hm.
  assert (Hnorm : Decimal.unorm (N.to_uint m) = N.to_uint m).
  { rewrite <- (DecimalN.Unsigned.of_to m) at 2.
    now rewrite DecimalN.Unsigned.to_of. }
  destruct (N.to_uint m) as [|u|u|u|u|u|u|u|u|u|u] eqn:E;
    try (do 2 eexists; split; [reflexivity | simpl; lia]).
  - exfalso. now apply (DecimalFacts.unorm_nonnil Decimal.Nil).
  - exfalso. unfold Decimal.unorm in Hnorm.
    destruct (Decimal.nzhead (Decimal.D0 u)) eqn:En;
      try (now apply (DecimalFacts.nzhead_nonzero (Decimal.D0 u) u); congruence).
    injection Hnorm as <-. apply Hm.
    rewrite <- (DecimalN.Unsigned.of_to m), E. reflexivity.
Qed.

Lemma generateRoomId_digits floor :
  generateRoomId floor = digits_string (uint_digits (N.to_uint (Z.to_N floor))).
Proof. unfold generateRoomId, decimal, digits_string. now rewrite uint_chars. Qed.

Lemma hex_prefixed_digits ds : hex_prefixed (digits_string ds) = false.
Proof.
  unfold digits_string. destruct ds as [|a [|b ds]]; [reflexivity | |].
  - destruct a; reflexivity.
  - destruct a; try reflexivity. destruct b; reflexivity.
Qed.

Lemma append_empty s : s +:+ EmptyString = s.
Proof.
  induction s as [|c s IH]; [reflexivity|].
  change (String c (s +:+ EmptyString) = String c s). now rewrite IH.
Qed.

Lemma length_digits_string ds : String.length (digits_string ds) = length ds.
Proof.
  unfold digits_string, chars. induction ds as [|d ds IH]; simpl; [reflexivity|].
  now rewrite IH.
Qed.

End RoomIds.

(** X2. For a draw in the range the source produces, 100000 to 999999, the
    room id is made of exactly six decimal digits, the first not a zero. *)
Theorem generateRoomId_six_digits floor :
  100000 <= floor <= 999999 ->
  exists d ds,
    generateRoomId floor = digits_string (d :: ds)
    /\ String.length (generateRoomId floor) = 6%nat
    /\ 1 <= digit_val d.
Proof.
  intros Hf. rewrite generateRoomId_digits.
  set (m := Z.to_N floor).
  destruct (to_uint_digits_head m) as (d & ds & Hds & Hd); [subst m; lia|].
  pose proof (to_uint_digits_val m) as Hval. rewrite Hds in *.
  exists d, ds. split; [reflexivity|]. split; [|exact Hd].
  rewrite length_digits_string, length_cons.
  pose proof (digits_val_bound (d :: ds)) as Hup.
  pose proof (digits_val_bound ds) as Hlow.
  pose proof (digits_val_cons d ds) as Hcons.
  rewrite length_cons in Hup.
  assert (Hm : Z.of_N m = floor) by (subst m; lia).
  assert (H5 : (length ds = 5)%nat).
  { destruct (Nat.lt_trichotomy (length ds) 5) as [Hlt | [Heq | Hgt]];
      [exfalso | exact Heq | exfalso].
    - assert (10 ^ Z.of_nat (S (length ds)) <= 10 ^ 5)
        by (apply Z.pow_le_mono_r; lia).
      lia.
    - assert (10 ^ 6 <= 10 ^ Z.of_nat (length ds))
        by (apply Z.pow_le_mono_r; lia).
      nia. }
  now rewrite H5.
Qed.

Lemma generateRoomId_six_digits_witness :
  exists d ds,
    generateRoomId 123456 = digits_string (d :: ds)
    /\ String.length (generateRoomId 123456) = 6%nat
    /\ 1 <= digit_val d.
Proof. apply generateRoomId_six_digits. lia. Defined.

(** X3. A room id reads back as the number that was drawn: [parseInt] of the
    id is the draw, so two different draws never give the same id. *)
Theorem generateRoomId_reads_back a :
  0 <= a ->
  parseInt (JStr (generateRoomId a)) = Some (IntVal a)
  /\ forall b, 0 <= b -> generateRoomId a = generateRoomId b -> a = b.
Proof.
  assert (Hparse : forall n, 0 <= n ->
            parseInt (JStr (generateRoomId n)) = Some (IntVal n)).
  { intros n Hn. rewrite generateRoomId_digits.
    set (ds := uint_digits (N.to_uint (Z.to_N n))).
    rewrite <- (append_empty (digits_string ds)).
    rewrite parseInt_digit_prefix.
    - subst ds. rewrite to_uint_digits_val. do 2 f_equal. lia.
    - subst ds. destruct (N.to_uint (Z.to_N n)) eqn:E; try discriminate.
      exfalso. revert E. destruct (Z.to_N n); [discriminate|].
      apply DecimalPos.Unsigned.to_uint_nonnil.
    - reflexivity.
    - rewrite append_empty. apply hex_prefixed_digits. }
  intros Ha. split; [now apply Hparse|].
  intros b Hb Heq.
  pose proof (Hparse a Ha) as H1. pose proof (Hparse b Hb) as H2.
  rewrite Heq, H2 in H1. now injection H1.
Qed.

Lemma generateRoomId_reads_back_witness :
  parseInt (JStr (generateRoomId 123456)) = Some (IntVal 123456)
  /\ forall b, 0 <= b -> generateRoomId 123456 = generateRoomId b -> 123456 = b.
Proof. apply generateRoomId_reads_back. lia. Defined.

(** ** create-room, then join-room *)

(** X1. Creating a room and then joining it with the returned id: the table
    holds, under the generated id, a room hosted by the creator with an
    empty queue and no current song, replacing whatever was stored there;
    no other room changes; the creator alone is told the id, and the joiner
    alone receives room-joined with that id, the empty queue and null. *)
Theorem create_then_join (rooms : gmap string Room) creator joiner floor :
  run rooms [(creator, CreateRoom floor);
             (joiner, JoinRoom (JStr (generateRoomId floor)))]
  = Returned (<[generateRoomId floor := mkRoom creator [] JNull]> rooms)
      [Join (JStr (generateRoomId floor));
       Emit ToSocket "room-created" [JStr (generateRoomId floor)];
       Join (JStr (generateRoomId floor));
       Emit ToSocket "room-joined"
         [JObj [("roomId", JStr (generateRoomId floor)); ("queue", JArr []);
                ("currentSong", JNull)]]]
  /\ (<[generateRoomId floor := mkRoom creator [] JNull]> rooms)
       !! generateRoomId floor = Some (mkRoom creator [] JNull)
  /\ forall other, other <> generateRoomId floor ->
       (<[generateRoomId floor := mkRoom creator [] JNull]> rooms) !! other
       = rooms !! other.
Proof.
  split; [|split].
  - cbn [run handle]. unfold create_room. cbv zeta.
    unfold join_room. cbn [ToPropertyKey ToString].
    rewrite (rooms_get_own _ _ _ (lookup_insert_eq rooms _ _)).
    reflexivity.
  - apply lookup_insert_eq.
  - intros other Hne. now apply lookup_insert_ne.
Qed.

(** ** What one handled event can do to the table *)

Lemma In_take {A} (x : A) n l : In x (take n l) -> In x l.
Proof.
  intros H. rewrite <- (take_drop n l). apply in_or_app. now left.
Qed.

Lemma In_drop {A} (x : A) n l : In x (drop n l) -> In x l.
Proof.
  intros H. rewrite <- (take_drop n l). apply in_or_app. now right.
Qed.

Lemma In_splice1 x t q : In x (splice1 t q) -> In x q.
Proof.
  unfold splice1. intros H. apply in_app_or in H as [H|H].
  - now apply In_take in H.
  - now apply In_drop in H.
Qed.

Ltac shape_update Hk Hget :=
  split; [exact Hk|]; split; [exact Hget|]; split; [discriminate|];
  split; [reflexivity|]; split; [reflexivity|].

(** A handler that returns leaves the table as it was, or stores a fresh
    room (create-room), or replaces the room its room id names by one with
    the same host whose queue holds items of the old queue and, for
    add-to-queue, the added song. *)
Lemma handle_shape (rooms : gmap string Room) sender e rooms' out :
  handle rooms sender e = Returned rooms' out ->
  rooms' = rooms
  \/ (exists floor,
        e = CreateRoom floor
        /\ rooms' = <[generateRoomId floor := mkRoom sender [] JNull]> rooms)
  \/ (exists key r r1,
        key_of e = Some key /\ rooms !! key = Some r
        /\ (forall floor, e <> CreateRoom floor)
        /\ rooms' = <[key := r1]> rooms
        /\ host r1 = host r
        /\ forall x, In x (queue r1) ->
             In x (queue r) \/ exists roomId, e = AddToQueue roomId x).
Proof.
  intros H.
  destruct e; simpl in H;
    unfold create_room, join_room, request_sync, add_to_queue, player_state,
      request_next, skip_song, clear_queue, remove_from_queue, play_specific,
      toggle_play, set_volume, disconnect in H.
  - cbv zeta in H. injection H as <- _. right. left. eauto.
  - destruct (ToPropertyKey roomId); [|discriminate].
    destruct (rooms_get rooms s); injection H as <- _; now left.
  - destruct (ToPropertyKey roomId); [|discriminate].
    destruct (rooms_get rooms s); injection H as <- _; now left.
  - destruct (ToPropertyKey roomId) as [k|] eqn:Hk; [|discriminate].
    destruct (rooms_get rooms k) as [r| |] eqn:Hget; try discriminate.
    + injection H as <- _. apply rooms_get_OwnRoom in Hget.
      right. right. exists k, r. eexists. simpl.
      shape_update Hk Hget.
      intros x Hx. simpl in Hx. apply in_app_or in Hx as [Hx|[<-|[]]]; eauto.
    + injection H as <- _. now left.
  - destruct (ToPropertyKey roomId); [|discriminate].
    destruct (rooms_get rooms s); injection H as <- _; now left.
  - destruct (ToPropertyKey roomId) as [k|] eqn:Hk; [|discriminate].
    destruct (rooms_get rooms k) as [r| |] eqn:Hget; try discriminate.
    + apply rooms_get_OwnRoom in Hget.
      destruct (queue r) as [|head rest] eqn:Hq; injection H as <- _;
        right; right; exists k, r; eexists; simpl;
        (shape_update Hk Hget);
        intros x Hx; simpl in Hx; [contradiction|].
      left. rewrite Hq. now right.
    + injection H as <- _. now left.
  - destruct (ToPropertyKey roomId); [|discriminate].
    destruct (rooms_get rooms s); injection H as <- _; now left.
  - destruct (ToPropertyKey roomId) as [k|] eqn:Hk; [|discriminate].
    destruct (rooms_get rooms k) as [r| |] eqn:Hget; try discriminate.
    + injection H as <- _. apply rooms_get_OwnRoom in Hget.
      right. right. exists k, r. eexists. simpl.
      shape_update Hk Hget.
      intros x [].
    + injection H as <- _. now left.
  - destruct (parseInt index) as [idx|]; [|discriminate].
    destruct (ToPropertyKey roomId) as [k|] eqn:Hk; [|discriminate].
    destruct (rooms_get rooms k) as [r| |] eqn:Hget.
    + apply rooms_get_OwnRoom in Hget.
      destruct idx as [|z]; [injection H as <- _; now left|].
      destruct (in_range (IntVal z) (length (queue r)));
        injection H as <- _; [|now left].
      right. right. exists k, r. eexists. simpl.
      shape_update Hk Hget.
      intros x Hx. left. now apply In_splice1 in Hx.
    + destruct (ge_zero idx); [discriminate|]. injection H as <- _; now left.
    + injection H as <- _; now left.
  - destruct (parseInt index) as [idx|]; [|discriminate].
    destruct (ToPropertyKey roomId) as [k|] eqn:Hk; [|discriminate].
    destruct (rooms_get rooms k) as [r| |] eqn:Hget.
    + apply rooms_get_OwnRoom in Hget.
      destruct idx as [|z]; [injection H as <- _; now left|].
      destruct (in_range (IntVal z) (length (queue r)));
        injection H as <- _; [|now left].
      right. right. exists k, r. eexists. simpl.
      shape_update Hk Hget.
      intros x Hx. left. now apply In_splice1 in Hx.
    + destruct (ge_zero idx); [discriminate|]. injection H as <- _; now left.
    + injection H as <- _; now left.
  - destruct (ToPropertyKey roomId); [|discriminate].
    destruct (rooms_get rooms s); injection H as <- _; now left.
  - destruct (ToPropertyKey roomId); [|discriminate].
    destruct (rooms_get rooms s); injection H as <- _; now left.
  - injection H as <- _. now left.
Qed.

(** X4. A handled event changes at most the room stored under the key it
    addresses: every room under another key is as before. *)
Theorem handle_touches_one_room (rooms : gmap string Room) sender e rooms' out k :
  handle rooms sender e = Returned rooms' out ->
  key_of e <> Some k ->
  rooms' !! k = rooms !! k.
Proof.
  intros H Hk.
  destruct (handle_shape _ _ _ _ _ H)
    as [-> | [(floor & -> & ->) | (key & r & r1 & Hkey & _ & _ & -> & _)]].
  - reflexivity.
  - apply lookup_insert_ne. intros <-. now apply Hk.
  - apply lookup_insert_ne. intros <-. now apply Hk.
Qed.

Lemma handle_touches_one_room_witness :
  (<["123456" := mkRoom "h" [JStr "a"] JNull]>
     ({[ "123456" := mkRoom "h" [] JNull; "654321" := mkRoom "g" [JStr "b"] JNull ]}
        : gmap string Room)) !! "654321"
  = ({[ "123456" := mkRoom "h" [] JNull; "654321" := mkRoom "g" [JStr "b"] JNull ]}
       : gmap string Room) !! "654321".
Proof.
  refine (handle_touches_one_room
            {[ "123456" := mkRoom "h" [] JNull;
               "654321" := mkRoom "g" [JStr "b"] JNull ]}
            "h" (AddToQueue (JStr "123456") (JStr "a")) _
            [Emit (IoTo (JStr "123456")) "queue-updated" [JArr [JStr "a"]]]
            "654321" _ _).
  - vm_compute. reflexivity.
  - simpl. discriminate.
Defined.

(** X6. No event other than create-room creates a room or changes a host:
    after any other handled event the table has the same keys, and every
    room has the host it had. *)
Theorem only_create_room_sets_hosts (rooms : gmap string Room) sender e rooms' out :
  handle rooms sender e = Returned rooms' out ->
  (forall floor, e <> CreateRoom floor) ->
  forall k,
    (is_Some (rooms' !! k) <-> is_Some (rooms !! k))
    /\ forall r r', rooms !! k = Some r -> rooms' !! k = Some r' ->
                    host r' = host r.
Proof.
  intros H Hne k.
  destruct (handle_shape _ _ _ _ _ H)
    as [-> | [(floor & -> & _) | (key & r0 & r1 & _ & Hr0 & _ & -> & Hhost & _)]].
  - split; [reflexivity|]. intros r r' Hr Hr'. congruence.
  - now destruct (Hne floor).
  - destruct (decide (key = k)) as [->|Hk].
    + rewrite lookup_insert_eq, Hr0. split; [split; eauto|].
      intros r r' [= <-] [= <-]. exact Hhost.
    + rewrite lookup_insert_ne by exact Hk. split; [reflexivity|].
      intros r r' Hr Hr'. congruence.
Qed.

Lemma only_create_room_sets_hosts_witness :
  (is_Some ((<["123456" := mkRoom "h" [] (JStr "a")]>
               ({[ "123456" := mkRoom "h" [JStr "a"] JNull ]} : gmap string Room))
            !! "123456")
   <-> is_Some (({[ "123456" := mkRoom "h" [JStr "a"] JNull ]} : gmap string Room)
                !! "123456"))
  /\ forall r r',
       ({[ "123456" := mkRoom "h" [JStr "a"] JNull ]} : gmap string Room)
         !! "123456" = Some r ->
       (<["123456" := mkRoom "h" [] (JStr "a")]>
          ({[ "123456" := mkRoom "h" [JStr "a"] JNull ]} : gmap string Room))
         !! "123456" = Some r' ->
       host r' = host r.
Proof.
  refine (only_create_room_sets_hosts
            {[ "123456" := mkRoom "h" [JStr "a"] JNull ]} "g"
            (RequestNext (JStr "123456")) _
            [Emit (IoTo (JStr "123456")) "play-song" [JStr "a"];
             Emit (IoTo (JStr "123456")) "queue-updated" [JArr []]]
            _ _ "123456").
  - vm_compute. reflexivity.
  - discriminate.
Defined.

(** X5. Rooms are never deleted: along every history of the table, a key
    that holds a room in an earlier table holds one in every later table. *)
Theorem rooms_are_never_deleted (rooms : gmap string Room) past :
  history (rooms :: past) ->
  forall earlier k, earlier ∈ past -> is_Some (earlier !! k) ->
                    is_Some (rooms !! k).
Proof.
  remember (rooms :: past) as h eqn:Hh. intros Hist.
  revert rooms past Hh.
  induction Hist as [|rooms0 past0 sender e rooms' out Hist IH Hstep];
    intros rooms past Hh earlier k Hin Hsome; injection Hh as <- <-.
  - now apply elem_of_nil in Hin.
  - assert (Hprev : is_Some (rooms0 !! k)).
    { apply elem_of_cons in Hin as [-> | Hin]; [exact Hsome|].
      exact (IH rooms0 past0 eq_refl earlier k Hin Hsome). }
    destruct (handle_shape _ _ _ _ _ Hstep)
      as [-> | [(floor & _ & ->) | (key & r0 & r1 & _ & _ & _ & -> & _)]].
    + exact Hprev.
    + destruct (decide (generateRoomId floor = k)) as [<-|Hk].
      * rewrite lookup_insert_eq. eauto.
      * now rewrite lookup_insert_ne.
    + destruct (decide (key = k)) as [<-|Hk].
      * rewrite lookup_insert_eq. eauto.
      * now rewrite lookup_insert_ne.
Qed.

Lemma rooms_are_never_deleted_witness :
  is_Some (({[ "123456" := mkRoom "h" [] JNull ]} : gmap string Room) !! "123456").
Proof.
  refine (rooms_are_never_deleted
            {[ "123456" := mkRoom "h" [] JNull ]}
            [ {[ "123456" := mkRoom "h" [JStr "a"] JNull ]};
              {[ "123456" := mkRoom "h" [] JNull ]}; ∅ ]
            _ {[ "123456" := mkRoom "h" [JStr "a"] JNull ]} "123456" _ _).
  - refine (history_step _ _ "h" (ClearQueue (JStr "123456")) _
              [Emit (IoTo (JStr "123456")) "queue-updated" [JArr []]] _ _);
      [| vm_compute; reflexivity].
    refine (history_step _ _ "g" (AddToQueue (JStr "123456") (JStr "a")) _
              [Emit (IoTo (JStr "123456")) "queue-updated" [JArr [JStr "a"]]] _ _);
      [| vm_compute; reflexivity].
    refine (history_step _ _ "h" (CreateRoom 123456) _
              [Join (JStr "123456"); Emit ToSocket "room-created" [JStr "123456"]]
              history_start _).
    vm_compute; reflexivity.
  - apply elem_of_cons. now left.
  - vm_compute. eauto.
Defined.

(** X16. Handlers never invent queue items: after a handled event, every
    item of a room's queue was in that room's queue before, or is the song
    the event added. *)
Theorem queued_items_were_added (rooms : gmap string Room) sender e rooms' out :
  handle rooms sender e = Returned rooms' out ->
  forall k r' x,
    rooms' !! k = Some r' -> In x (queue r') ->
    (exists r, rooms !! k = Some r /\ In x (queue r))
    \/ exists roomId, e = AddToQueue roomId x.
Proof.
  intros H k r' x Hr' Hx.
  destruct (handle_shape _ _ _ _ _ H)
    as [-> | [(floor & _ & ->) | (key & r0 & r1 & _ & Hr0 & _ & -> & _ & Hq)]].
  - left. eauto.
  - destruct (decide (generateRoomId floor = k)) as [<-|Hk].
    + rewrite lookup_insert_eq in Hr'. injection Hr' as <-. destruct Hx.
    + rewrite lookup_insert_ne in Hr' by exact Hk. left. eauto.
  - destruct (decide (key = k)) as [<-|Hk].
    + rewrite lookup_insert_eq in Hr'. injection Hr' as <-.
      destruct (Hq x Hx) as [Hold | Hadd]; [left; eauto | now right].
    + rewrite lookup_insert_ne in Hr' by exact Hk. left. eauto.
Qed.

Lemma queued_items_were_added_witness :
  (exists r,
      ({[ "123456" := mkRoom "h" [JStr "a"; JStr "b"] JNull ]} : gmap string Room)
        !! "123456" = Some r
      /\ In (JStr "b") (queue r))
  \/ exists roomId,
       RemoveFromQueue (JStr "123456") (JStr "0") = AddToQueue roomId (JStr "b").
Proof.
  refine (queued_items_were_added
            {[ "123456" := mkRoom "h" [JStr "a"; JStr "b"] JNull ]} "g"
            (RemoveFromQueue (JStr "123456") (JStr "0"))
            {[ "123456" := mkRoom "h" [JStr "b"] JNull ]}
            [Emit (IoTo (JStr "123456")) "queue-updated" [JArr [JStr "b"]]]
            _ "123456" (mkRoom "h" [JStr "b"] JNull) (JStr "b") _ _).
  - vm_compute. reflexivity.
  - reflexivity.
  - simpl. now left.
Defined.

(** ** What is emitted, and to whom *)

Ltac emitted_here :=
  repeat match goal with
         | H : False |- _ => destruct H
         | H : _ \/ _ |- _ => destruct H as [H|H]
         | H : (_, _) = (_, _) |- _ => injection H as <- <-
         end;
  try (split; [reflexivity|];
       eexists; split; [apply lookup_insert_eq | reflexivity]).

(** The payloads of the broadcasts of one handled event, against the table
    the handler leaves. *)
Lemma broadcast_state (rooms : gmap string Room) sender e
    rooms' out roomId key :
  handle rooms sender e = Returned rooms' out ->
  room_of e = Some roomId ->
  ToPropertyKey roomId = Some key ->
  (forall to args,
      In (to, args) (emissions "queue-updated" out) ->
      to = IoTo roomId
      /\ exists r', rooms' !! key = Some r' /\ args = [JArr (queue r')])
  /\ (forall to args,
         In (to, args) (emissions "play-song" out) ->
         to = IoTo roomId
         /\ exists r', rooms' !! key = Some r' /\ args = [currentSong r']).
Proof.
  intros H He Hkey.
  destruct e; simpl in He; try discriminate; injection He as ->; simpl in H;
    unfold request_sync, add_to_queue, player_state, request_next, skip_song,
      clear_queue, remove_from_queue, play_specific, toggle_play, set_volume in H;
    try (destruct (parseInt index) as [[|z]|]; [| |discriminate]);
    rewrite Hkey in H;
    destruct (rooms_get rooms key) as [r| |] eqn:Hget;
    try discriminate;
    try (destruct (in_range (IntVal z) (length (queue r))));
    try (destruct (queue r) as [|head rest] eqn:Hq);
    try (destruct (ge_zero _); [discriminate|]);
    injection H as <- <-;
    (split; intros to args Hin; simpl in Hin; emitted_here).
Qed.

(** X7. No stale broadcast: every queue-updated a handler emits is addressed
    to the room with [io.to(roomId)] and carries the queue that room has in
    the table after the handler, and every play-song carries the currentSong
    it has after the handler. *)
Theorem broadcasts_carry_the_new_state (rooms : gmap string Room) sender e
    rooms' out roomId key :
  handle rooms sender e = Returned rooms' out ->
  room_of e = Some roomId ->
  ToPropertyKey roomId = Some key ->
  (forall to args,
      In (to, args) (emissions "queue-updated" out) ->
      to = IoTo roomId
      /\ exists r', rooms' !! key = Some r' /\ args = [JArr (queue r')])
  /\ (forall to args,
         In (to, args) (emissions "play-song" out) ->
         to = IoTo roomId
         /\ exists r', rooms' !! key = Some r' /\ args = [currentSong r']).
Proof. apply broadcast_state. Qed.

Lemma broadcasts_carry_the_new_state_witness :
  (forall to args,
      In (to, args)
         (emissions "queue-updated"
            [Emit (IoTo (JStr "123456")) "play-song" [JStr "b"];
             Emit (IoTo (JStr "123456")) "queue-updated" [JArr [JStr "a"]]]) ->
      to = IoTo (JStr "123456")
      /\ exists r',
           ({[ "123456" := mkRoom "h" [JStr "a"] (JStr "b") ]} : gmap string Room)
             !! "123456" = Some r'
           /\ args = [JArr (queue r')])
  /\ (forall to args,
         In (to, args)
            (emissions "play-song"
               [Emit (IoTo (JStr "123456")) "play-song" [JStr "b"];
                Emit (IoTo (JStr "123456")) "queue-updated" [JArr [JStr "a"]]]) ->
         to = IoTo (JStr "123456")
         /\ exists r',
              ({[ "123456" := mkRoom "h" [JStr "a"] (JStr "b") ]} : gmap string Room)
                !! "123456" = Some r'
              /\ args = [currentSong r']).
Proof.
  refine (broadcasts_carry_the_new_state
            {[ "123456" := mkRoom "h" [JStr "a"; JStr "b"] JNull ]} "g"
            (PlaySpecific (JStr "123456") (JStr "1")) _ _
            (JStr "123456") "123456" _ eq_refl eq_refl).
  vm_compute. reflexivity.
Defined.

(** X12. Every emission of a handler that returns is addressed by the kind
    of its event: room-created, room-joined, error and full-sync go to the
    sender alone; queue-updated and play-song go to the whole room;
    player-state, force-skip, toggle-play and set-volume go past the
    sender. *)
Theorem emissions_are_well_routed (rooms : gmap string Room) sender e rooms' out :
  handle rooms sender e = Returned rooms' out ->
  Forall well_routed out.
Proof.
  intros H.
  destruct e; cbn [handle] in H;
    unfold create_room, join_room, request_sync, add_to_queue, player_state,
      request_next, skip_song, clear_queue, remove_from_queue, play_specific,
      toggle_play, set_volume, disconnect in H;
    cbv zeta in H;
    repeat match type of H with
           | context [match ?x with _ => _ end] => destruct x; try discriminate
           end;
    injection H as _ <-;
    repeat (constructor; [simpl; auto 10|]); constructor.
Qed.

Lemma emissions_are_well_routed_witness :
  Forall well_routed
    [Join (JStr "999999");
     Emit ToSocket "room-joined"
       [JObj [("roomId", JStr "999999"); ("queue", JArr []);
              ("currentSong", JNull)]]].
Proof.
  refine (emissions_are_well_routed
            {[ "999999" := mkRoom "h" [] JNull ]} "g" (JoinRoom (JStr "999999"))
            _ _ _).
  vm_compute. reflexivity.
Defined.

(** ** Removing and playing one item *)

Lemma splice1_length t (q : list Value) :
  0 <= t < Z.of_nat (length q) ->
  S (length (splice1 t q)) = length q.
Proof.
  intros Ht. unfold splice1. rewrite length_app, length_take, length_drop. lia.
Qed.

Lemma splice1_before t (q : list Value) i :
  (i < Z.to_nat t)%nat -> splice1 t q !! i = q !! i.
Proof.
  intros Hi. unfold splice1.
  destruct (decide (i < length q)%nat) as [Hlt|Hge].
  - rewrite lookup_app_l by (rewrite length_take; lia).
    now apply lookup_take_lt.
  - rewrite (lookup_ge_None_2 q) by lia. apply lookup_ge_None_2.
    rewrite length_app, length_take, length_drop. lia.
Qed.

Lemma splice1_after t (q : list Value) i :
  0 <= t < Z.of_nat (length q) ->
  (Z.to_nat t <= i)%nat -> splice1 t q !! i = q !! S i.
Proof.
  intros Ht Hi. unfold splice1.
  rewrite lookup_app_r by (rewrite length_take; lia).
  rewrite length_take, lookup_drop. f_equal. lia.
Qed.

Lemma splice1_middle t (q : list Value) :
  0 <= t < Z.of_nat (length q) ->
  take (Z.to_nat t) q ++ nth (Z.to_nat t) q JUndefined :: drop (S (Z.to_nat t)) q = q.
Proof.
  intros Ht. apply take_drop_middle.
  destruct (nth_lookup_or_length q (Z.to_nat t) JUndefined) as [H|H];
    [exact H | lia].
Qed.

(** X8. remove-from-queue at a position in range removes exactly that
    position: the queue is one shorter, the items before the position stay
    where they were, the items after it move down by one, and host and
    currentSong are untouched. *)
Theorem remove_shifts_later_items (rooms : gmap string Room) roomId key r index t :
  ToPropertyKey roomId = Some key ->
  rooms !! key = Some r ->
  parseInt index = Some (IntVal t) ->
  0 <= t < Z.of_nat (length (queue r)) ->
  exists rooms' r',
    remove_from_queue rooms roomId index
    = Returned rooms' [Emit (IoTo roomId) "queue-updated" [JArr (queue r')]]
    /\ rooms' !! key = Some r'
    /\ host r' = host r /\ currentSong r' = currentSong r
    /\ S (length (queue r')) = length (queue r)
    /\ (forall i, (i < Z.to_nat t)%nat -> queue r' !! i = queue r !! i)
    /\ (forall i, (Z.to_nat t <= i)%nat -> queue r' !! i = queue r !! S i).
Proof.
  intros Hkey Hroom Hparse Ht.
  destruct (index_acts rooms roomId key r index t Hkey Hroom Hparse Ht) as [Hrem _].
  exists (<[key := mkRoom (host r) (splice1 t (queue r)) (currentSong r)]> rooms),
    (mkRoom (host r) (splice1 t (queue r)) (currentSong r)).
  split; [exact Hrem|]. split; [apply lookup_insert_eq|]. simpl.
  split; [reflexivity|]. split; [reflexivity|].
  split; [now apply splice1_length|]. split.
  - intros i Hi. now apply splice1_before.
  - intros i Hi. now apply splice1_after.
Qed.

Lemma remove_shifts_later_items_witness :
  exists rooms' r',
    remove_from_queue
      {[ "123456" := mkRoom "h" [JStr "a"; JStr "b"; JStr "c"] JNull ]}
      (JStr "123456") (JStr "1")
    = Returned rooms' [Emit (IoTo (JStr "123456")) "queue-updated" [JArr (queue r')]]
    /\ rooms' !! "123456" = Some r'
    /\ host r' = "h" /\ currentSong r' = JNull
    /\ S (length (queue r')) = 3%nat
    /\ (forall i, (i < 1)%nat -> queue r' !! i = [JStr "a"; JStr "b"; JStr "c"] !! i)
    /\ (forall i, (1 <= i)%nat ->
          queue r' !! i = [JStr "a"; JStr "b"; JStr "c"] !! S i).
Proof.
  refine (remove_shifts_later_items
            {[ "123456" := mkRoom "h" [JStr "a"; JStr "b"; JStr "c"] JNull ]}
            (JStr "123456") "123456"
            (mkRoom "h" [JStr "a"; JStr "b"; JStr "c"] JNull) (JStr "1") 1
            eq_refl eq_refl eq_refl _).
  simpl. lia.
Defined.

(** X9. play-specific at a position in range moves exactly one item: the
    item at that position becomes currentSong, and currentSong together
    with the new queue is a rearrangement of the old queue, so no item is
    lost or duplicated. *)
Theorem play_specific_moves_one_item (rooms : gmap string Room) roomId key r index t :
  ToPropertyKey roomId = Some key ->
  rooms !! key = Some r ->
  parseInt index = Some (IntVal t) ->
  0 <= t < Z.of_nat (length (queue r)) ->
  exists rooms' r' out,
    play_specific rooms roomId index = Returned rooms' out
    /\ rooms' !! key = Some r'
    /\ host r' = host r
    /\ queue r !! Z.to_nat t = Some (currentSong r')
    /\ Permutation (currentSong r' :: queue r') (queue r)
    /\ played out = [currentSong r'].
Proof.
  intros Hkey Hroom Hparse Ht.
  destruct (index_acts rooms roomId key r index t Hkey Hroom Hparse Ht) as [_ Hplay].
  do 3 eexists. split; [exact Hplay|]. split; [apply lookup_insert_eq|]. simpl.
  split; [reflexivity|]. split; [|split; [|reflexivity]].
  - destruct (nth_lookup_or_length (queue r) (Z.to_nat t) JUndefined) as [H|H];
      [exact H | lia].
  - unfold splice1. rewrite <- (splice1_middle t (queue r) Ht) at 4.
    apply Permutation_middle.
Qed.

Lemma play_specific_moves_one_item_witness :
  exists rooms' r' out,
    play_specific
      {[ "123456" := mkRoom "h" [JStr "a"; JStr "b"; JStr "c"] JNull ]}
      (JStr "123456") (JStr "1")
    = Returned rooms' out
    /\ rooms' !! "123456" = Some r'
    /\ host r' = "h"
    /\ [JStr "a"; JStr "b"; JStr "c"] !! Z.to_nat 1 = Some (currentSong r')
    /\ Permutation (currentSong r' :: queue r') [JStr "a"; JStr "b"; JStr "c"]
    /\ played out = [currentSong r'].
Proof.
  refine (play_specific_moves_one_item
            {[ "123456" := mkRoom "h" [JStr "a"; JStr "b"; JStr "c"] JNull ]}
            (JStr "123456") "123456"
            (mkRoom "h" [JStr "a"; JStr "b"; JStr "c"] JNull) (JStr "1") 1
            eq_refl eq_refl eq_refl _).
  simpl. lia.
Defined.

(** X10. On a non-empty queue, play-specific at position 0 is request-next:
    the same table and the same emissions. *)
Theorem play_specific_head_is_request_next (rooms : gmap string Room) roomId key r index :
  ToPropertyKey roomId = Some key ->
  rooms !! key = Some r ->
  parseInt index = Some (IntVal 0) ->
  queue r <> [] ->
  play_specific rooms roomId index = request_next rooms roomId.
Proof.
  intros Hkey Hroom Hparse Hq.
  unfold play_specific, request_next. rewrite Hparse. own_room Hkey Hroom.
  destruct (queue r) as [|head rest]; [congruence|]. reflexivity.
Qed.

Lemma play_specific_head_is_request_next_witness :
  play_specific {[ "123456" := mkRoom "h" [JStr "a"; JStr "b"] JNull ]}
    (JStr "123456") (JNum (Zero false))
  = request_next {[ "123456" := mkRoom "h" [JStr "a"; JStr "b"] JNull ]}
      (JStr "123456").
Proof.
  refine (play_specific_head_is_request_next
            {[ "123456" := mkRoom "h" [JStr "a"; JStr "b"] JNull ]}
            (JStr "123456") "123456" (mkRoom "h" [JStr "a"; JStr "b"] JNull)
            (JNum (Zero false)) eq_refl eq_refl eq_refl _).
  discriminate.
Defined.

(** X11. Adding a song and then removing the last position undoes the
    addition: the table is as it was before the two events, and the room
    was sent the longer queue and then the original one. *)
Theorem add_then_remove_last (rooms : gmap string Room) roomId key r song index c1 c2 :
  ToPropertyKey roomId = Some key ->
  rooms !! key = Some r ->
  parseInt index = Some (IntVal (Z.of_nat (length (queue r)))) ->
  run rooms [(c1, AddToQueue roomId song); (c2, RemoveFromQueue roomId index)]
  = Returned rooms
      [Emit (IoTo roomId) "queue-updated" [JArr (queue r ++ [song])];
       Emit (IoTo roomId) "queue-updated" [JArr (queue r)]].
Proof.
  intros Hkey Hroom Hparse.
  cbn [run handle]. unfold add_to_queue. own_room Hkey Hroom.
  set (r1 := mkRoom (host r) (queue r ++ [song]) (currentSong r)).
  assert (Hr1 : <[key := r1]> rooms !! key = Some r1) by apply lookup_insert_eq.
  assert (Ht : 0 <= Z.of_nat (length (queue r)) < Z.of_nat (length (queue r1))).
  { subst r1. simpl. rewrite length_app. simpl. lia. }
  destruct (index_acts _ roomId key r1 index _ Hkey Hr1 Hparse Ht) as [Hrem _].
  rewrite Hrem.
  assert (Hq : splice1 (Z.of_nat (length (queue r))) (queue r1) = queue r).
  { subst r1. unfold splice1. simpl. rewrite Nat2Z.id.
    rewrite take_app_length.
    rewrite drop_ge by (rewrite length_app; simpl; lia).
    apply app_nil_r. }
  rewrite Hq. subst r1. simpl.
  rewrite insert_insert_eq.
  replace (mkRoom (host r) (queue r) (currentSong r)) with r by now destruct r.
  now rewrite (insert_id _ _ _ Hroom).
Qed.

Lemma add_then_remove_last_witness :
  run {[ "123456" := mkRoom "h" [JStr "a"] JNull ]}
    [("g", AddToQueue (JStr "123456") (JStr "b"));
     ("h", RemoveFromQueue (JStr "123456") (JStr "1"))]
  = Returned {[ "123456" := mkRoom "h" [JStr "a"] JNull ]}
      [Emit (IoTo (JStr "123456")) "queue-updated" [JArr [JStr "a"; JStr "b"]];
       Emit (IoTo (JStr "123456")) "queue-updated" [JArr [JStr "a"]]].
Proof.
  exact (add_then_remove_last {[ "123456" := mkRoom "h" [JStr "a"] JNull ]}
           (JStr "123456") "123456" (mkRoom "h" [JStr "a"] JNull) (JStr "b")
           (JStr "1") "g" "h" eq_refl eq_refl eq_refl).
Defined.

(** X17. An index that is absent from the payload (undefined), null, a
    boolean, NaN, infinite, an empty text, an empty array or an object is
    never acted on: for an existing room both operations change nothing and
    emit nothing. *)
Theorem unusable_index_is_ignored (rooms : gmap string Room) roomId key r index :
  ToPropertyKey roomId = Some key ->
  rooms !! key = Some r ->
  match index with
  | JUndefined | JNull | JBool _ | JNum NaN | JNum (Infinity _) => True
  | JStr s => s = EmptyString
  | JArr elems => elems = []
  | JObj fields => has_field "toString" fields = false
  | JNum _ => False
  end ->
  remove_from_queue rooms roomId index = Returned rooms []
  /\ play_specific rooms roomId index = Returned rooms [].
Proof.
  intros Hkey Hroom Hindex.
  apply (index_ignored rooms roomId key r index IntNaN Hkey Hroom); [|reflexivity].
  destruct index as [| |b|[|neg|neg|neg s n]|s|elems|fields]; try contradiction;
    try reflexivity.
  - now destruct b.
  - now destruct neg.
  - now subst s.
  - now subst elems.
  - unfold parseInt. simpl ToString. now rewrite Hindex.
Qed.

Lemma unusable_index_is_ignored_witness :
  remove_from_queue {[ "123456" := mkRoom "h" [JStr "a"] JNull ]}
    (JStr "123456") JUndefined
  = Returned {[ "123456" := mkRoom "h" [JStr "a"] JNull ]} []
  /\ play_specific {[ "123456" := mkRoom "h" [JStr "a"] JNull ]}
       (JStr "123456") JUndefined
     = Returned {[ "123456" := mkRoom "h" [JStr "a"] JNull ]} [].
Proof.
  exact (unusable_index_is_ignored {[ "123456" := mkRoom "h" [JStr "a"] JNull ]}
           (JStr "123456") "123456" (mkRoom "h" [JStr "a"] JNull) JUndefined
           eq_refl eq_refl I).
Defined.

(** ** Unknown rooms *)

(** X13. A room id under which nothing is stored, and which is not a name
    every object inherits, is answered by join-room alone, with the error
    for the sender; every other room event does nothing at all, with no
    reply, when its index (if it has one) can be converted. *)
Theorem unknown_room_is_silent (rooms : gmap string Room) sender roomId key :
  ToPropertyKey roomId = Some key ->
  rooms !! key = None ->
  inherited key = false ->
  handle rooms sender (JoinRoom roomId)
  = Returned rooms [Emit ToSocket "error" [JStr "Room not found"]]
  /\ forall e,
       room_of e = Some roomId ->
       (forall index, index_of e = Some index -> parseInt index <> None) ->
       handle rooms sender e = Returned rooms [].
Proof.
  intros Hkey Hroom Hi. split.
  - simpl. now apply (join_room_missing rooms roomId key).
  - intros e He Hidx.
    now apply (missing_room_is_ignored rooms sender e roomId key).
Qed.

Lemma unknown_room_is_silent_witness :
  handle ∅ "g" (JoinRoom (JStr "999999"))
  = Returned ∅ [Emit ToSocket "error" [JStr "Room not found"]]
  /\ forall e,
       room_of e = Some (JStr "999999") ->
       (forall index, index_of e = Some index -> parseInt index <> None) ->
       handle ∅ "g" e = Returned ∅ [].
Proof.
  exact (unknown_room_is_silent ∅ "g" (JStr "999999") "999999"
           eq_refl eq_refl eq_refl).
Defined.

(** ** request-next past the end of the queue *)

Lemma requests_app roomId a b :
  requests roomId (a ++ b) = requests roomId a ++ requests roomId b.
Proof. unfold requests. apply map_app. Qed.

Lemma run_requests_empty roomId key :
  ToPropertyKey roomId = Some key ->
  forall nexts (rooms : gmap string Room) r,
    rooms !! key = Some r ->
    queue r = [] ->
    exists rooms' out,
      run rooms (requests roomId nexts) = Returned rooms' out
      /\ played out = replicate (length nexts) JNull
      /\ rooms' !! key
         = Some (mkRoom (host r) []
                   (match nexts with [] => currentSong r | _ => JNull end)).
Proof.
  intros Hkey. induction nexts as [|c nexts IH]; intros rooms r Hroom Hq.
  - exists rooms, []. repeat split. rewrite Hroom. destruct r; simpl in *.
    now subst.
  - simpl. unfold request_next. own_room Hkey Hroom. rewrite Hq.
    destruct (IH (<[key := mkRoom (host r) [] JNull]> rooms)
                 (mkRoom (host r) [] JNull))
      as (rooms' & out & Hrun & Hplayed & Hfinal).
    { apply lookup_insert_eq. }
    { reflexivity. }
    rewrite Hrun. do 2 eexists. split; [reflexivity|]. split.
    + rewrite played_app, Hplayed. reflexivity.
    + rewrite Hfinal. simpl. now destruct nexts.
Qed.

(** X15. Once the queue is exhausted, request-next keeps answering: after
    more request-next events than there are queued items, the items were
    announced in order, every further request announced null, and the room
    is left with an empty queue and no current song. *)
Theorem request_next_past_the_end (rooms : gmap string Room) roomId key r
    (nexts : list string) :
  ToPropertyKey roomId = Some key ->
  rooms !! key = Some r ->
  (length (queue r) < length nexts)%nat ->
  exists rooms' out,
    run rooms (requests roomId nexts) = Returned rooms' out
    /\ played out
       = queue r ++ replicate (length nexts - length (queue r)) JNull
    /\ rooms' !! key = Some (mkRoom (host r) [] JNull).
Proof.
  intros Hkey Hroom Hlen.
  rewrite <- (take_drop (length (queue r)) nexts), requests_app.
  assert (Hn : length (take (length (queue r)) nexts) = length (queue r))
    by (rewrite length_take; lia).
  destruct (run_requests roomId key Hkey (take (length (queue r)) nexts)
              rooms r Hroom)
    as (rooms1 & out1 & Hrun1 & Hplayed1 & Hroom1); [lia|].
  rewrite Hn in Hplayed1, Hroom1.
  rewrite firstn_all in Hplayed1, Hroom1. rewrite drop_all in Hroom1.
  destruct (run_requests_empty roomId key Hkey (drop (length (queue r)) nexts)
              rooms1 _ Hroom1 eq_refl)
    as (rooms2 & out2 & Hrun2 & Hplayed2 & Hroom2).
  exists rooms2, (out1 ++ out2).
  rewrite (run_app _ _ _ _ _ Hrun1), Hrun2.
  split; [reflexivity|]. split.
  - rewrite played_app, Hplayed1, Hplayed2, length_app, length_drop, Hn.
    do 2 f_equal. lia.
  - rewrite Hroom2. simpl.
    destruct (drop (length (queue r)) nexts) eqn:E; [|reflexivity].
    apply (f_equal length) in E. rewrite length_drop in E. simpl in E. lia.
Qed.

Lemma request_next_past_the_end_witness :
  exists rooms' out,
    run {[ "123456" := mkRoom "h" [JStr "a"] JNull ]}
      (requests (JStr "123456") ["h"; "g"; "h"])
    = Returned rooms' out
    /\ played out = [JStr "a"] ++ replicate (3 - 1) JNull
    /\ rooms' !! "123456" = Some (mkRoom "h" [] JNull).
Proof.
  refine (request_next_past_the_end
            {[ "123456" := mkRoom "h" [JStr "a"] JNull ]} (JStr "123456")
            "123456" (mkRoom "h" [JStr "a"] JNull) ["h"; "g"; "h"]
            eq_refl eq_refl _).
  simpl. lia.
Defined.

(** ** The search route, continued *)

Section SearchRouteMore.

Import Search.

Lemma map_videos_bad videos v :
  In v videos -> get_name (author v) = None -> map_videos videos = None.
Proof.
  induction videos as [|w videos IH]; intros Hin Hbad; [destruct Hin|].
  simpl. destruct Hin as [-> | Hin].
  - now rewrite Hbad.
  - rewrite (IH Hin Hbad). now destruct (get_name (author w)).
Qed.

(** X14. When the provider succeeds, the answer is decided by its first 15
    videos alone, later ones are never looked at; a video among them whose
    author is undefined or null turns the whole answer into 500; otherwise
    the answer is 200 with one song per video, in order, carrying the
    video's id, title, thumbnail, timestamp and author name. *)
Theorem search_reads_first_15 (yts : Value -> Lookup) (q param text : Value) videos :
  truthy q = true ->
  searchQuery q (karaokeOnly_of param) = Some text ->
  yts text = Resolved videos ->
  search yts q param = search (fun _ => Resolved (take 15 videos)) q param
  /\ ((exists v, In v (take 15 videos)
                 /\ (author v = JUndefined \/ author v = JNull)) ->
      search yts q param = mkResponse 500 (ErrorBody "Failed to search YouTube"))
  /\ (Forall (fun v => get_name (author v) <> None) (take 15 videos) ->
      exists songs,
        search yts q param = mkResponse 200 (Songs songs)
        /\ length songs = Nat.min 15 (length videos)
        /\ map song_id songs = map videoId (take 15 videos)
        /\ map song_title songs = map title (take 15 videos)
        /\ map song_thumbnail songs = map thumbnail (take 15 videos)
        /\ map song_duration songs = map timestamp (take 15 videos)
        /\ map (fun s => Some (song_author s)) songs
           = map (fun v => get_name (author v)) (take 15 videos)).
Proof.
  intros Hq Ht Hy.
  assert (Hs : search yts q param
               = match map_videos (take 15 videos) with
                 | Some songs => mkResponse 200 (Songs songs)
                 | None => mkResponse 500 (ErrorBody "Failed to search YouTube")
                 end).
  { unfold search. now rewrite Hq, Ht, Hy. }
  split; [|split].
  - rewrite Hs. unfold search. rewrite Hq, Ht. simpl.
    rewrite firstn_firstn. reflexivity.
  - intros (v & Hin & Hbad). rewrite Hs.
    rewrite (map_videos_bad _ v Hin); [reflexivity|].
    destruct Hbad as [-> | ->]; reflexivity.
  - intros Hall. destruct (map_videos_total _ Hall) as [songs Hm].
    destruct (map_videos_spec _ _ Hm) as (H1 & H2 & H3 & H4 & H5 & H6).
    exists songs. rewrite Hs, Hm. split; [reflexivity|].
    split; [now rewrite H1, length_take|]. auto.
Qed.

Lemma search_reads_first_15_witness :
  search (fun _ => Resolved [mkVideo (JStr "v1") (JStr "t") JNull JNull JUndefined])
    (JStr "abba") JUndefined
  = mkResponse 500 (ErrorBody "Failed to search YouTube").
Proof.
  refine (proj1 (proj2 (search_reads_first_15
            (fun _ => Resolved [mkVideo (JStr "v1") (JStr "t") JNull JNull JUndefined])
            (JStr "abba") JUndefined (JStr "abba karaoke")
            [mkVideo (JStr "v1") (JStr "t") JNull JNull JUndefined]
            eq_refl eq_refl eq_refl)) _).
  eexists. split; [left; reflexivity | left; reflexivity].
Defined.

End SearchRouteMore.

(** ** Snapshots and senders *)

(** X19. What a connection is told when it asks agrees with what the room
    was just told: right after a handled event that broadcast a queue, both
    request-sync and join-room for that room answer the sender with that
    same queue (and the room's current song), and change nothing. *)
Theorem sync_agrees_with_broadcast (rooms : gmap string Room) sender e rooms' out
    roomId key to q :
  handle rooms sender e = Returned rooms' out ->
  room_of e = Some roomId ->
  ToPropertyKey roomId = Some key ->
  In (to, [q]) (emissions "queue-updated" out) ->
  exists r',
    rooms' !! key = Some r'
    /\ request_sync rooms' roomId
       = Returned rooms'
           [Emit ToSocket "full-sync"
              [JObj [("queue", q); ("currentSong", currentSong r')]]]
    /\ join_room rooms' roomId
       = Returned rooms'
           [Join roomId;
            Emit ToSocket "room-joined"
              [JObj [("roomId", roomId); ("queue", q);
                     ("currentSong", currentSong r')]]].
Proof.
  intros H He Hkey Hin.
  destruct (broadcast_state _ _ _ _ _ _ _ H He Hkey) as [Hq _].
  destruct (Hq to [q] Hin) as (_ & r' & Hr' & Heq). injection Heq as ->.
  exists r'. split; [exact Hr'|].
  unfold request_sync, join_room. own_room Hkey Hr'. now split.
Qed.

Lemma sync_agrees_with_broadcast_witness :
  exists r',
    ({[ "123456" := mkRoom "h" [JStr "a"] JNull ]} : gmap string Room)
      !! "123456" = Some r'
    /\ request_sync {[ "123456" := mkRoom "h" [JStr "a"] JNull ]} (JStr "123456")
       = Returned {[ "123456" := mkRoom "h" [JStr "a"] JNull ]}
           [Emit ToSocket "full-sync"
              [JObj [("queue", JArr [JStr "a"]); ("currentSong", currentSong r')]]]
    /\ join_room {[ "123456" := mkRoom "h" [JStr "a"] JNull ]} (JStr "123456")
       = Returned {[ "123456" := mkRoom "h" [JStr "a"] JNull ]}
           [Join (JStr "123456");
            Emit ToSocket "room-joined"
              [JObj [("roomId", JStr "123456"); ("queue", JArr [JStr "a"]);
                     ("currentSong", currentSong r')]]].
Proof.
  refine (sync_agrees_with_broadcast
            {[ "123456" := mkRoom "h" [] JNull ]} "g"
            (AddToQueue (JStr "123456") (JStr "a"))
            {[ "123456" := mkRoom "h" [JStr "a"] JNull ]}
            [Emit (IoTo (JStr "123456")) "queue-updated" [JArr [JStr "a"]]]
            (JStr "123456") "123456" (IoTo (JStr "123456")) (JArr [JStr "a"])
            _ eq_refl eq_refl _).
  - vm_compute. reflexivity.
  - simpl. now left.
Defined.


